(** * Mastermind zkApp: the utility circuits of [utils.ts]

    A shallow embedding of the pure helper functions of the recursive
    Mastermind zkApp (combination codec, clue engine, state-word codec and
    history packer), followed by the properties stated about them.

    Field elements of o1js are elements of the Pallas base field; they are
    represented by their canonical representative in [Z], every arithmetic
    operation reducing modulo [Field.p].  A failed assertion throws in the
    source; here every function returns a [result], and the error names the
    assertion that failed. *)

From Stdlib Require Import ZArith List Lia Bool.
Import ListNotations.
Local Open Scope Z_scope.

(** ** Errors and the result monad *)

Inductive error : Type :=
| NotFourDigit            (* 'The combination must be a four-digit Field!' *)
| ZeroDigit (k : nat)     (* `Combination digit ${k} should not be zero!` *)
| NotUnique (k : nat)     (* `Combination digit ${k} is not unique!` *)
| TurnCountBound          (* 'Turn count must be less than 100!' *)
| MaxAttemptBound         (* 'Max attempt must be less than 100!' *)
| SolvedFlagBound         (* 'Solved flag must be less than 2!' *)
| IndexNoMatch            (* 'Invalid index: Index out of bounds or multiple indices match!' *)
| IndexOutOfBounds        (* 'Invalid index: Index out of bounds!' *)
| NotEqual                (* Field.assertEquals without a message *)
| BitLength               (* Field.toBits / Field.fromBits: more than 254 bits asked *)
| DoesNotFit              (* Field.toBits(): the value does not fit in the length *)
| Undefined               (* TypeError: a method called on a missing array element *)
| Hole                    (* an array write past the end, which would leave a hole *)
| OutOfFuel.              (* a loop that does not terminate *)

Inductive result (A : Type) : Type :=
| Ok (a : A)
| Err (e : error).
Arguments Ok {A} a.
Arguments Err {A} e.

Definition bind {A B : Type} (m : result A) (k : A -> result B) : result B :=
  match m with
  | Ok a => k a
  | Err e => Err e
  end.

Notation "x <- m ;; k" := (bind m (fun x => k))
  (at level 61, m at next level, right associativity).
Notation "' pat <- m ;; k" := (bind m (fun x => match x with pat => k end))
  (at level 61, pat pattern, m at next level, right associativity).

(** [for (let i ...) body]: the loop body run on each index in turn, the
    first failing assertion aborting the whole loop. *)
Fixpoint for_each {S : Type} (idx : list nat) (body : nat -> S -> result S)
  (s : S) : result S :=
  match idx with
  | [] => Ok s
  | i :: rest => s' <- body i s ;; for_each rest body s'
  end.

(** [xs.map(f)] with a callback that may throw. *)
Fixpoint mapM {A B : Type} (f : A -> result B) (xs : list A) : result (list B) :=
  match xs with
  | [] => Ok []
  | x :: rest => y <- f x ;; ys <- mapM f rest ;; Ok (y :: ys)
  end.

(** ** JavaScript arrays *)

(** [arr[i]] followed by a method call: a missing element is [undefined]
    and the call throws. *)
Definition array_get {A : Type} (arr : list A) (i : nat) : result A :=
  match nth_error arr i with
  | Some a => Ok a
  | None => Err Undefined
  end.

(** [arr[i] = x]: replaces an element, or appends when [i] is the length.
    A write further out would leave holes, which this model has none of. *)
Definition array_set {A : Type} (arr : list A) (i : nat) (x : A) : result (list A) :=
  if (i <=? length arr)%nat
  then Ok (firstn i arr ++ x :: skipn (S i) arr)
  else Err Hole.

(** [arr.slice(a, b)] *)
Definition slice {A : Type} (arr : list A) (a b : nat) : list A :=
  firstn (b - a) (skipn a arr).

(** ** The o1js primitives used by the utilities

    The library itself is not part of the repository.  Its operations are
    modelled on constant field elements as its documentation describes them:
    arithmetic modulo the field order, comparisons on the canonical
    representatives, [toBits] and [fromBits] in little-endian order (the
    first bit is the least significant), [toBits(n)] throwing when the value
    does not fit in [n] bits, and both refusing more than 254 bits. *)

Module Field.

(** The order of the Pallas base field. *)
Definition p : Z :=
  28948022309329048855892746252171976963363056481941560715954676764349967630337.

(** A value of type [Field] is a canonical representative. *)
Definition wf (x : Z) : Prop := 0 <= x < p.

(** [Field(n)] *)
Definition of_Z (n : Z) : Z := n mod p.

Definition add (x y : Z) : Z := (x + y) mod p.
Definition mul (x y : Z) : Z := (x * y) mod p.

Definition equals (x y : Z) : bool := x =? y.
Definition lessThan (x y : Z) : bool := x <? y.
Definition lessThanOrEqual (x y : Z) : bool := x <=? y.
Definition greaterThanOrEqual (x y : Z) : bool := y <=? x.

(** [Bool.toField()] *)
Definition toField (b : bool) : Z := if b then 1 else 0.

(** [Provable.if(c, x, y)] *)
Definition ite {A : Type} (c : bool) (x y : A) : A := if c then x else y.

Definition assertTrue (b : bool) (e : error) : result unit :=
  if b then Ok tt else Err e.
Definition assertFalse (b : bool) (e : error) : result unit :=
  if b then Err e else Ok tt.
Definition assertEquals (x y : Z) (e : error) : result unit :=
  assertTrue (equals x y) e.
Definition assertNotEquals (x y : Z) (e : error) : result unit :=
  assertFalse (equals x y) e.
Definition assertLessThan (x y : Z) (e : error) : result unit :=
  assertTrue (lessThan x y) e.

(** The [n] low bits of [x], least significant first. *)
Fixpoint bits_le (n : nat) (x : Z) : list bool :=
  match n with
  | O => []
  | S k => Z.odd x :: bits_le k (Z.div2 x)
  end.

(** The number a little-endian bit list denotes. *)
Fixpoint of_bits_le (bs : list bool) : Z :=
  match bs with
  | [] => 0
  | b :: rest => Z.b2z b + 2 * of_bits_le rest
  end.

(** [checkBitLength]: at most 254 bits. *)
Definition maxBits : nat := 254.

(** [x.toBits(length)]: little-endian, throws when [x] does not fit. *)
Definition toBits (x : Z) (length : nat) : result (list bool) :=
  if (maxBits <? length)%nat then Err BitLength
  else if x <? 2 ^ Z.of_nat length then Ok (bits_le length x)
  else Err DoesNotFit.

(** [Field.fromBits(bits)]: little-endian. *)
Definition fromBits (bits : list bool) : result Z :=
  if (maxBits <? length bits)%nat then Err BitLength
  else Ok (of_Z (of_bits_le bits)).

End Field.

(** ** Constants ([constants.ts]) *)

Definition PER_TURN_GAME_DURATION : Z := 2.
Definition MAX_ATTEMPTS : nat := 7.

(** ** Combination codec *)

Definition compressCombinationDigits (combinationDigits : list Z) : result Z :=
  d0 <- array_get combinationDigits 0 ;;
  d1 <- array_get combinationDigits 1 ;;
  d2 <- array_get combinationDigits 2 ;;
  d3 <- array_get combinationDigits 3 ;;
  Ok (Field.add
        (Field.add (Field.add (Field.mul d0 1000) (Field.mul d1 100))
                   (Field.mul d2 10))
        d3).

Definition separateCombinationDigits (combination : Z) : result (list Z) :=
  let isFourDigit :=
    Field.greaterThanOrEqual combination 1000
    && Field.lessThanOrEqual combination 9999 in
  _ <- Field.assertTrue isFourDigit NotFourDigit ;;
  let digits :=
    let num := combination in
    [ Z.quot num 1000;
      Z.rem (Z.quot num 100) 10;
      Z.rem (Z.quot num 10) 10;
      Z.rem num 10 ] in
  c <- compressCombinationDigits digits ;;
  _ <- Field.assertEquals c combination NotEqual ;;
  Ok digits.

Definition validateCombination (combinationDigits : list Z) : result unit :=
  for_each (seq 1 3) (fun i _ =>
    di <- array_get combinationDigits i ;;
    _ <- Field.assertFalse (Field.equals di 0) (ZeroDigit (i + 1)) ;;
    for_each (seq i (4 - i)) (fun j _ =>
      a <- array_get combinationDigits (i - 1) ;;
      b <- array_get combinationDigits j ;;
      Field.assertNotEquals a b (NotUnique (j + 1))) tt) tt.

(** ** Clue engine *)

Definition serializeClue (clue : list Z) : result Z :=
  clueBits <- mapM (fun f => Field.toBits f 2) clue ;;
  Field.fromBits (concat clueBits).

Definition deserializeClue (serializedClue : Z) : result (list Z) :=
  bits <- Field.toBits serializedClue 8 ;;
  clueA <- Field.fromBits (slice bits 0 2) ;;
  clueB <- Field.fromBits (slice bits 2 4) ;;
  clueC <- Field.fromBits (slice bits 4 6) ;;
  clueD <- Field.fromBits (slice bits 6 8) ;;
  Ok [clueA; clueB; clueC; clueD].

Definition getClueFromGuess (guess solution : list Z) : result (list Z) :=
  let clue := repeat (Field.of_Z 0) 4 in
  for_each (seq 0 4) (fun i clue =>
    for_each (seq 0 4) (fun j clue =>
      gi <- array_get guess i ;;
      sj <- array_get solution j ;;
      let isEqual := Field.toField (Field.equals gi sj) in
      ci <- array_get clue i ;;
      if (i =? j)%nat
      then array_set clue i (Field.add ci (Field.mul isEqual 2))
      else array_set clue i (Field.add ci isEqual)) clue) clue.

Definition checkIfSolved (clue : list Z) : result bool :=
  let isSolved := true in
  for_each (seq 0 4) (fun i isSolved =>
    ci <- array_get clue i ;;
    let isHit := Field.equals ci 2 in
    Ok (isSolved && isHit)) isSolved.

(** ** State-word codec *)

Definition compressTurnCountMaxAttemptSolved (digits : list Z) : result Z :=
  d0 <- array_get digits 0 ;;
  _ <- Field.assertLessThan d0 100 TurnCountBound ;;
  d1 <- array_get digits 1 ;;
  _ <- Field.assertLessThan d1 100 MaxAttemptBound ;;
  d2 <- array_get digits 2 ;;
  _ <- Field.assertLessThan d2 2 SolvedFlagBound ;;
  Ok (Field.add (Field.mul d0 10000) (Field.add (Field.mul d1 100) d2)).

Definition separateTurnCountAndMaxAttemptSolved (value : Z) : result (list Z) :=
  let digits :=
    let num := value in
    [ Z.quot num 10000; Z.rem (Z.quot num 100) 100; Z.rem num 100 ] in
  c <- compressTurnCountMaxAttemptSolved digits ;;
  _ <- Field.assertEquals c value NotEqual ;;
  Ok digits.

(** ** History packer *)

Definition serialize (fields : list Z) (range : nat) : result Z :=
  bits <- mapM (fun c => Field.toBits c range) fields ;;
  Field.fromBits (concat bits).

(** The chunking loop of [deserialize]: [i] advances by [chunkSize] until it
    reaches the number of bits.  With [chunkSize = 0] the source loop never
    ends; the fuel runs out instead. *)
Fixpoint chunk_loop (fuel : nat) (packedBits : list bool) (chunkSize i : nat)
  (unpackedBits : list (list bool)) : result (list (list bool)) :=
  match fuel with
  | O => Err OutOfFuel
  | S fuel' =>
      if (i <? length packedBits)%nat
      then
        let chunk := slice packedBits i (i + chunkSize) in
        chunk_loop fuel' packedBits chunkSize (i + chunkSize)
          (unpackedBits ++ [chunk])
      else Ok unpackedBits
  end.

Definition deserialize (serializedField : Z) (size chunkSize : nat)
  : result (list Z) :=
  packedBits <- Field.toBits serializedField size ;;
  unpackedBits <-
    chunk_loop (S (length packedBits)) packedBits chunkSize 0 [] ;;
  mapM Field.fromBits unpackedBits.

Definition serializeClueHistory (clues : list Z) : result Z :=
  serialize clues 8.

Definition deserializeClueHistory (serializedClueHistory : Z) : result (list Z) :=
  deserialize serializedClueHistory 120 8.

Definition serializeCombinationHistory (combinations : list Z) : result Z :=
  serialize combinations 14.

Definition deserializeCombinationHistory (serializedCombinationHistory : Z)
  : result (list Z) :=
  deserialize serializedCombinationHistory 210 14.

Definition getElementAtIndex (fieldArray : list Z) (index : Z) : result Z :=
  let length := length fieldArray in
  '(totalIndexMatch, selectedValue) <-
    for_each (seq 0 length) (fun i '(totalIndexMatch, selectedValue) =>
      let isMatch :=
        Field.toField (Field.equals index (Field.of_Z (Z.of_nat i))) in
      ai <- array_get fieldArray i ;;
      let matchingValue := Field.mul isMatch ai in
      Ok (Field.add totalIndexMatch isMatch,
          Field.add selectedValue matchingValue))
      (Field.of_Z 0, Field.of_Z 0) ;;
  _ <- Field.assertEquals totalIndexMatch 1 IndexNoMatch ;;
  Ok selectedValue.

Definition updateElementAtIndex (newValue : Z) (fieldArray : list Z) (index : Z)
  : result (list Z) :=
  _ <- Field.assertLessThan index
         (Field.of_Z (Z.of_nat (length fieldArray))) IndexOutOfBounds ;;
  for_each (seq 0 (length fieldArray)) (fun i updatedFieldArray =>
    ai <- array_get fieldArray i ;;
    array_set updatedFieldArray i
      (Field.ite (Field.equals index (Field.of_Z (Z.of_nat i))) newValue ai))
    [].

(** ** The scoring rule, as the specification words it *)

(** [[guess[i] == solution[i]]] *)
Definition hit (guess solution : list Z) (i : nat) : Z :=
  Z.b2z (nth i guess 0 =? nth i solution 0).

(** The number of positions [j <> i] with [guess[i] == solution[j]]. *)
Definition blows (guess solution : list Z) (i : nat) : Z :=
  Z.of_nat (length (filter
    (fun j => negb (j =? i)%nat && (nth i guess 0 =? nth j solution 0))
    (seq 0 4))).

Definition clue_rule (guess solution : list Z) (i : nat) : Z :=
  2 * hit guess solution i + blows guess solution i.

(** ** Closed forms used in the statements *)

(** The array the write loop of [updateElementAtIndex] builds, element by
    element, over the positions [js]. *)
Definition written (fieldArray : list Z) (index newValue : Z) (js : list nat)
  : list Z :=
  map (fun j => if index =? Z.of_nat j then newValue else nth j fieldArray 0)
    js.

(** The aggregate with element [k] in bits [W*k .. W*k + W - 1]:
    the sum of [e_k * 2^(W*k)]. *)
Definition little_endian_sum (W : nat) (es : list Z) : Z :=
  fold_right Z.add 0
    (map (fun k => nth k es 0 * 2 ^ (Z.of_nat W * Z.of_nat k))
       (seq 0 (length es))).

(** The aggregate with element 0 in the highest-order field:
    the sum of [e_k * 2^(W*(N-1-k))], [N] the number of elements. *)
Definition big_endian_sum (W : nat) (es : list Z) : Z :=
  fold_right Z.add 0
    (map (fun k =>
            nth k es 0
            * 2 ^ (Z.of_nat W * (Z.of_nat (length es) - 1 - Z.of_nat k)))
       (seq 0 (length es))).

(** Slot [j] of an aggregate: its bits [W*j .. W*j + W - 1]. *)
Definition slot (W : nat) (v : Z) (j : nat) : Z :=
  (v / 2 ^ (Z.of_nat W * Z.of_nat j)) mod 2 ^ Z.of_nat W.

(** ** The unsigned integers of o1js and the reward word

    [UInt32] and [UInt64] wrap a field element known to lie in their range:
    [from] refuses a constant outside it, and the arithmetic of [UInt64]
    checks that its result still fits in 64 bits.  These failures are kept
    apart from the field assertions of [error]. *)

Inductive failure : Type :=
| Thrown (e : error)      (* a field assertion, as in [result] *)
| UInt32Range             (* UInt32.from: the constant is not in 0 .. 2^32 - 1 *)
| UInt64Range             (* UInt64.from: the constant is not in 0 .. 2^64 - 1 *)
| UInt64Overflow.         (* UInt64.mul / UInt64.add: the result exceeds 64 bits *)

Inductive checked (A : Type) : Type :=
| Value (a : A)
| Failure (f : failure).
Arguments Value {A} a.
Arguments Failure {A} f.

Definition checked_bind {A B : Type} (m : checked A) (k : A -> checked B)
  : checked B :=
  match m with
  | Value a => k a
  | Failure f => Failure f
  end.

Notation "x <~ m ;; k" := (checked_bind m (fun x => k))
  (at level 61, m at next level, right associativity).

Definition lift {A : Type} (m : result A) : checked A :=
  match m with
  | Ok a => Value a
  | Err e => Failure (Thrown e)
  end.

Module UInt32.

(** [UInt32.from(x)] on a bigint. *)
Definition from (x : Z) : checked Z :=
  if (0 <=? x) && (x <? 2 ^ 32) then Value x else Failure UInt32Range.

End UInt32.

Module UInt64.

(** [UInt64.from(x)] on a number or bigint. *)
Definition from (x : Z) : checked Z :=
  if (0 <=? x) && (x <? 2 ^ 64) then Value x else Failure UInt64Range.

(** [UInt64.from(x)] on a [UInt32]: the same field element. *)
Definition of_UInt32 (x : Z) : Z := x.

(** [x.mul(y)] with [y] a number: the product as field elements, which has
    to fit in 64 bits. *)
Definition mul (x y : Z) : checked Z :=
  y' <~ from y ;;
  let z := Field.mul x y' in
  if z <? 2 ^ 64 then Value z else Failure UInt64Overflow.

(** [x.add(y)]: the sum as field elements, which has to fit in 64 bits. *)
Definition add (x y : Z) : checked Z :=
  let z := Field.add x y in
  if z <? 2 ^ 64 then Value z else Failure UInt64Overflow.

End UInt64.

(** The object [{ rewardAmount, finalizeSlot }]. *)
Record RewardAndFinalizeSlot : Type := {
  rewardAmount : Z;
  finalizeSlot : Z
}.

Definition compressRewardAndFinalizeSlot (rewardAmount finalizeSlot : Z) : Z :=
  Field.add (Field.mul rewardAmount (2 ^ 32)) finalizeSlot.

Definition separateRewardAndFinalizeSlot (value : Z)
  : checked RewardAndFinalizeSlot :=
  let num := value in
  d0 <~ UInt32.from (Z.quot num 18446744073709551616) ;;
  d1 <~ UInt32.from (Z.rem (Z.quot num 4294967296) 4294967296) ;;
  d2 <~ UInt32.from (Z.rem num 4294967296) ;;
  high <~ UInt64.mul (UInt64.of_UInt32 d0) (2 ^ 32) ;;
  rewardAmount <~ UInt64.add high (UInt64.of_UInt32 d1) ;;
  let finalizeSlot := d2 in
  _ <~ lift (Field.assertEquals
               (compressRewardAndFinalizeSlot rewardAmount finalizeSlot)
               value NotEqual) ;;
  Value {| rewardAmount := rewardAmount; finalizeSlot := finalizeSlot |}.

(** * Properties *)

(** ** Sanity checks on concrete inputs *)

Example separate_1234 : separateCombinationDigits 1234 = Ok [1; 2; 3; 4].
Proof. reflexivity. Qed.

Example clue_readme :
  getClueFromGuess [5; 7; 2; 6] [5; 6; 3; 4] = Ok [2; 0; 0; 1].
Proof. reflexivity. Qed.

Example clue_solved :
  (c <- getClueFromGuess [5; 6; 3; 4] [5; 6; 3; 4] ;; checkIfSolved c) = Ok true.
Proof. reflexivity. Qed.

Example validate_1123 : validateCombination [1; 1; 2; 3] = Err (NotUnique 2).
Proof. reflexivity. Qed.

Example serialize_clue_2222 : serializeClue [2; 2; 2; 2] = Ok 170.
Proof. reflexivity. Qed.

Example deserialize_clue_170 : deserializeClue 170 = Ok [2; 2; 2; 2].
Proof. reflexivity. Qed.

Example update_then_get :
  (a <- updateElementAtIndex 9 [1; 2; 3] 1 ;; getElementAtIndex a 1) = Ok 9.
Proof. reflexivity. Qed.

(** ** Properties of the clue engine *)

Ltac split_eqb :=
  repeat match goal with
         | |- context [Z.eqb ?a ?b] => destruct (Z.eqb a b)
         end.

Ltac four_elements l :=
  let H := fresh in
  intro H; do 4 (destruct l as [| ? l]; [discriminate H |]);
  destruct l; [clear H | discriminate H].

Lemma getClueFromGuess_four (g0 g1 g2 g3 s0 s1 s2 s3 : Z) :
  getClueFromGuess [g0; g1; g2; g3] [s0; s1; s2; s3]
  = Ok (map (clue_rule [g0; g1; g2; g3] [s0; s1; s2; s3]) (seq 0 4)).
Proof.
  cbv [getClueFromGuess for_each seq bind array_get nth_error array_set repeat
       Nat.eqb Nat.leb length firstn skipn app Field.of_Z].
  cbv [clue_rule hit blows map seq filter nth Nat.eqb negb andb Field.equals].
  f_equal.
  repeat (apply f_equal2; [split_eqb; reflexivity |]).
  reflexivity.
Qed.

(** C1: on arrays of four digits [getClueFromGuess] returns the clue whose
    entry [i] is twice the hit indicator of position [i] plus the number of
    other positions [j] whose solution digit equals [guess[i]]; a guess digit
    that matches the solution at all three other positions therefore collects
    three blow credits, one per matching position. *)
Theorem getClueFromGuess_scoring_rule (guess solution : list Z) :
  length guess = 4%nat ->
  length solution = 4%nat ->
  exists clue,
    getClueFromGuess guess solution = Ok clue
    /\ length clue = 4%nat
    /\ (forall i, (i < 4)%nat ->
          nth i clue 0
          = 2 * (if nth i guess 0 =? nth i solution 0 then 1 else 0)
            + Z.of_nat (length (filter
                (fun j => negb (j =? i)%nat
                          && (nth i guess 0 =? nth j solution 0))
                (seq 0 4))))
    /\ (forall i, (i < 4)%nat ->
          nth i guess 0 <> nth i solution 0 ->
          (forall j, (j < 4)%nat -> j <> i ->
             nth i guess 0 = nth j solution 0) ->
          nth i clue 0 = 3).
Proof.
  revert guess solution.
  assert (rule : forall guess solution i,
             2 * (if nth i guess 0 =? nth i solution 0 then 1 else 0)
             + Z.of_nat (length (filter
                 (fun j => negb (j =? i)%nat
                           && (nth i guess 0 =? nth j solution 0))
                 (seq 0 4)))
             = clue_rule guess solution i) by reflexivity.
  intros guess solution; four_elements guess; four_elements solution.
  eexists; split; [apply getClueFromGuess_four |].
  split; [reflexivity |].
  split.
  - intros i Hi. rewrite rule.
    do 4 (destruct i as [| i]; [reflexivity |]). lia.
  - intros i Hi Hne Hall.
    do 4 (destruct i as [| i];
          [ cbn in Hne;
            pose proof (Hall 0%nat) as H0; pose proof (Hall 1%nat) as H1;
            pose proof (Hall 2%nat) as H2; pose proof (Hall 3%nat) as H3;
            cbn in H0, H1, H2, H3;
            cbn [map seq nth clue_rule]; unfold clue_rule, hit, blows;
            cbn [nth seq filter Nat.eqb negb andb];
            repeat match goal with
                   | |- context [Z.eqb ?a ?b] =>
                       destruct (Z.eqb_spec a b); try lia
                   end;
            try reflexivity
          |]).
    lia.
Qed.

(** The clue of a guess whose first digit occurs at the three other
    positions of the solution. *)
Lemma getClueFromGuess_scoring_rule_witness :
  exists clue,
    getClueFromGuess [1; 2; 3; 4] [0; 1; 1; 1] = Ok clue
    /\ length clue = 4%nat
    /\ (forall i, (i < 4)%nat ->
          nth i clue 0
          = 2 * (if nth i [1; 2; 3; 4] 0 =? nth i [0; 1; 1; 1] 0 then 1 else 0)
            + Z.of_nat (length (filter
                (fun j => negb (j =? i)%nat
                          && (nth i [1; 2; 3; 4] 0 =? nth j [0; 1; 1; 1] 0))
                (seq 0 4))))
    /\ (forall i, (i < 4)%nat ->
          nth i [1; 2; 3; 4] 0 <> nth i [0; 1; 1; 1] 0 ->
          (forall j, (j < 4)%nat -> j <> i ->
             nth i [1; 2; 3; 4] 0 = nth j [0; 1; 1; 1] 0) ->
          nth i clue 0 = 3).
Proof.
  apply (getClueFromGuess_scoring_rule [1; 2; 3; 4] [0; 1; 1; 1]);
    reflexivity.
Defined.

(** C9: on a clue of four scores [checkIfSolved] returns a boolean, and it
    is [true] exactly when every one of the four scores equals 2. *)
Theorem checkIfSolved_iff_all_hits (clue : list Z) :
  length clue = 4%nat ->
  exists b,
    checkIfSolved clue = Ok b
    /\ (b = true <-> forall i, (i < 4)%nat -> nth i clue 0 = 2).
Proof.
  four_elements clue.
  rename z into c0, z0 into c1, z1 into c2, z2 into c3.
  eexists; split; [reflexivity |].
  cbv [Field.equals andb].
  split.
  - intros H i Hi.
    destruct (Z.eqb_spec c0 2), (Z.eqb_spec c1 2), (Z.eqb_spec c2 2),
      (Z.eqb_spec c3 2); try discriminate H.
    do 4 (destruct i as [| i]; [assumption |]). lia.
  - intros H.
    pose proof (H 0%nat) as H0; pose proof (H 1%nat) as H1;
      pose proof (H 2%nat) as H2; pose proof (H 3%nat) as H3.
    cbn in H0, H1, H2, H3.
    rewrite H0, H1, H2, H3 by lia. reflexivity.
Qed.

Lemma checkIfSolved_iff_all_hits_witness :
  exists b,
    checkIfSolved [2; 2; 1; 2] = Ok b
    /\ (b = true <-> forall i, (i < 4)%nat -> nth i [2; 2; 1; 2] 0 = 2).
Proof.
  apply (checkIfSolved_iff_all_hits [2; 2; 1; 2]). reflexivity.
Defined.

(** ** Properties of the combination codec *)

Section FieldArithmetic.

Lemma add_small (x y : Z) :
  0 <= x + y < Field.p -> Field.add x y = x + y.
Proof. intros H. unfold Field.add. now apply Z.mod_small. Qed.

Lemma mul_small (x y : Z) :
  0 <= x * y < Field.p -> Field.mul x y = x * y.
Proof. intros H. unfold Field.mul. now apply Z.mod_small. Qed.

Lemma of_Z_small (x : Z) : 0 <= x < Field.p -> Field.of_Z x = x.
Proof. intros H. unfold Field.of_Z. now apply Z.mod_small. Qed.

Lemma p_large : 2 ^ 254 < Field.p.
Proof. reflexivity. Qed.

End FieldArithmetic.

(** Removes the reductions modulo [Field.p] that cannot wrap, innermost
    first. *)
Ltac field_small :=
  repeat match goal with
         | |- context [Field.mul ?x ?y] =>
             rewrite (mul_small x y) by (unfold Field.p; lia)
         | |- context [Field.add ?x ?y] =>
             rewrite (add_small x y) by (unfold Field.p; lia)
         | |- context [Field.of_Z ?x] =>
             rewrite (of_Z_small x) by (unfold Field.p; lia)
         end.

Lemma compressCombinationDigits_decimal (d0 d1 d2 d3 : Z) :
  0 <= d0 <= 9 -> 0 <= d1 <= 9 -> 0 <= d2 <= 9 -> 0 <= d3 <= 9 ->
  compressCombinationDigits [d0; d1; d2; d3]
  = Ok (d0 * 1000 + d1 * 100 + d2 * 10 + d3).
Proof.
  intros H0 H1 H2 H3. cbn. field_small. reflexivity.
Qed.

Lemma separateCombinationDigits_ok (v : Z) :
  1000 <= v <= 9999 ->
  separateCombinationDigits v
  = Ok [Z.quot v 1000; Z.rem (Z.quot v 100) 10; Z.rem (Z.quot v 10) 10;
        Z.rem v 10].
Proof.
  intros Hv. unfold separateCombinationDigits.
  unfold Field.greaterThanOrEqual, Field.lessThanOrEqual.
  replace (1000 <=? v) with true by (symmetry; apply Z.leb_le; lia).
  replace (v <=? 9999) with true by (symmetry; apply Z.leb_le; lia).
  cbn [andb Field.assertTrue bind].
  rewrite compressCombinationDigits_decimal
    by (Z.to_euclidean_division_equations; lia).
  cbn [bind]. unfold Field.assertEquals, Field.equals.
  replace (_ =? v) with true
    by (symmetry; apply Z.eqb_eq; Z.to_euclidean_division_equations; lia).
  reflexivity.
Qed.

Lemma separateCombinationDigits_inv (v : Z) (ds : list Z) :
  separateCombinationDigits v = Ok ds ->
  1000 <= v <= 9999
  /\ ds = [Z.quot v 1000; Z.rem (Z.quot v 100) 10; Z.rem (Z.quot v 10) 10;
           Z.rem v 10].
Proof.
  intros H.
  assert (Hv : 1000 <= v <= 9999).
  { unfold separateCombinationDigits in H.
    unfold Field.greaterThanOrEqual, Field.lessThanOrEqual in H.
    destruct (Z.leb_spec 1000 v), (Z.leb_spec v 9999);
      cbn in H; try discriminate H. lia. }
  split; [exact Hv |].
  rewrite (separateCombinationDigits_ok v Hv) in H. now inversion H.
Qed.

(** C5: the decimal encoding of a combination round-trips both ways.
    Compressing four digits [d0 .. d3] ([d0] in 0..9, the others in 1..9)
    that form a number in 1000..9999 and separating the result gives the
    digits back; separating any [v] in 1000..9999 and compressing the digits
    gives [v] back. *)
Theorem combination_encoding_round_trip :
  (forall d0 d1 d2 d3 : Z,
      0 <= d0 <= 9 -> 1 <= d1 <= 9 -> 1 <= d2 <= 9 -> 1 <= d3 <= 9 ->
      1000 <= d0 * 1000 + d1 * 100 + d2 * 10 + d3 <= 9999 ->
      (v <- compressCombinationDigits [d0; d1; d2; d3] ;;
       separateCombinationDigits v) = Ok [d0; d1; d2; d3])
  /\ (forall v : Z,
         1000 <= v <= 9999 ->
         (ds <- separateCombinationDigits v ;; compressCombinationDigits ds)
         = Ok v).
Proof.
  split.
  - intros d0 d1 d2 d3 H0 H1 H2 H3 Hv.
    rewrite compressCombinationDigits_decimal by lia. cbn [bind].
    rewrite separateCombinationDigits_ok by exact Hv.
    repeat f_equal; Z.to_euclidean_division_equations; lia.
  - intros v Hv.
    rewrite separateCombinationDigits_ok by exact Hv. cbn [bind].
    rewrite compressCombinationDigits_decimal
      by (Z.to_euclidean_division_equations; lia).
    f_equal. Z.to_euclidean_division_equations; lia.
Qed.

Lemma combination_encoding_round_trip_witness :
  (v <- compressCombinationDigits [7; 3; 5; 1] ;;
   separateCombinationDigits v) = Ok [7; 3; 5; 1]
  /\ (ds <- separateCombinationDigits 9080 ;; compressCombinationDigits ds)
     = Ok 9080.
Proof.
  split.
  - apply (proj1 combination_encoding_round_trip 7 3 5 1); lia.
  - apply (proj2 combination_encoding_round_trip 9080); lia.
Defined.

(** The checks of [validateCombination] in the order the two loops run
    them; the first one that fails decides the error. *)
Lemma validateCombination_four (d0 d1 d2 d3 : Z) :
  validateCombination [d0; d1; d2; d3]
  = if d1 =? 0 then Err (ZeroDigit 2)
    else if d0 =? d1 then Err (NotUnique 2)
    else if d0 =? d2 then Err (NotUnique 3)
    else if d0 =? d3 then Err (NotUnique 4)
    else if d2 =? 0 then Err (ZeroDigit 3)
    else if d1 =? d2 then Err (NotUnique 3)
    else if d1 =? d3 then Err (NotUnique 4)
    else if d3 =? 0 then Err (ZeroDigit 4)
    else if d2 =? d3 then Err (NotUnique 4)
    else Ok tt.
Proof.
  cbv [validateCombination for_each seq bind array_get nth_error Nat.sub
       Nat.add Field.assertFalse Field.assertNotEquals Field.equals].
  split_eqb; reflexivity.
Qed.

Ltac decide_eqb :=
  repeat match goal with
         | H : context [Z.eqb ?a ?b] |- _ => destruct (Z.eqb_spec a b)
         | |- context [Z.eqb ?a ?b] => destruct (Z.eqb_spec a b)
         end.

Lemma validateCombination_ok_distinct (d0 d1 d2 d3 : Z) :
  validateCombination [d0; d1; d2; d3] = Ok tt ->
  d1 <> 0 /\ d2 <> 0 /\ d3 <> 0
  /\ d0 <> d1 /\ d0 <> d2 /\ d0 <> d3 /\ d1 <> d2 /\ d1 <> d3 /\ d2 <> d3.
Proof.
  rewrite validateCombination_four. intros H.
  decide_eqb; try discriminate H. lia.
Qed.

(** C7 (as the code has it): [validateCombination] succeeds exactly when
    [d1], [d2], [d3] are non-zero and the four digits are pairwise distinct.
    It fails with one of its two errors only: a zero-digit error implies that
    one of [d1], [d2], [d3] is zero, a duplicate-digit error implies that two
    digits are equal.  The first failing check in loop order decides which
    of the two is raised, so each implication is an equivalence only when the
    other kind of defect is absent. *)
Theorem validateCombination_outcome (d0 d1 d2 d3 : Z) :
  (validateCombination [d0; d1; d2; d3] = Ok tt <->
     d1 <> 0 /\ d2 <> 0 /\ d3 <> 0
     /\ d0 <> d1 /\ d0 <> d2 /\ d0 <> d3 /\ d1 <> d2 /\ d1 <> d3 /\ d2 <> d3)
  /\ (forall e, validateCombination [d0; d1; d2; d3] = Err e ->
        (exists k, e = ZeroDigit k) \/ (exists k, e = NotUnique k))
  /\ (forall k, validateCombination [d0; d1; d2; d3] = Err (ZeroDigit k) ->
        d1 = 0 \/ d2 = 0 \/ d3 = 0)
  /\ (forall k, validateCombination [d0; d1; d2; d3] = Err (NotUnique k) ->
        d0 = d1 \/ d0 = d2 \/ d0 = d3 \/ d1 = d2 \/ d1 = d3 \/ d2 = d3)
  /\ (d0 <> d1 /\ d0 <> d2 /\ d0 <> d3 /\ d1 <> d2 /\ d1 <> d3 /\ d2 <> d3 ->
        ((exists k, validateCombination [d0; d1; d2; d3] = Err (ZeroDigit k))
         <-> d1 = 0 \/ d2 = 0 \/ d3 = 0))
  /\ (d1 <> 0 /\ d2 <> 0 /\ d3 <> 0 ->
        ((exists k, validateCombination [d0; d1; d2; d3] = Err (NotUnique k))
         <-> d0 = d1 \/ d0 = d2 \/ d0 = d3 \/ d1 = d2 \/ d1 = d3 \/ d2 = d3)).
Proof.
  rewrite validateCombination_four.
  split; [split |].
  - intros H. decide_eqb; try discriminate H. lia.
  - intros H. decide_eqb; try reflexivity; lia.
  - split; [| split; [| split; [| split]]].
    + intros e H. decide_eqb; inversion H; eauto.
    + intros k H. decide_eqb; try discriminate H; lia.
    + intros k H. decide_eqb; try discriminate H; lia.
    + intros Hd. split.
      * intros [k H]. decide_eqb; try discriminate H; lia.
      * intros H. decide_eqb; try lia; eauto.
    + intros Hz. split.
      * intros [k H]. decide_eqb; try discriminate H; lia.
      * intros H. decide_eqb; try lia; eauto.
Qed.

(** C7, refuted as stated: [1; 1; 0; 2] has a zero at [d2], yet the
    duplicate check on [d0], [d1] runs first and the error raised is the
    duplicate-digit one. *)
Lemma validateCombination_zero_error_not_iff :
  ~ ((exists k, validateCombination [1; 1; 0; 2] = Err (ZeroDigit k))
     <-> (nth 1 [1; 1; 0; 2] 0 = 0 \/ nth 2 [1; 1; 0; 2] 0 = 0
          \/ nth 3 [1; 1; 0; 2] 0 = 0)).
Proof.
  intros [_ H].
  destruct (H (or_intror (or_introl eq_refl))) as [k Hk].
  discriminate Hk.
Qed.

(** C3 (as the code has it): a value that [separateCombinationDigits]
    decodes and whose digits [validateCombination] accepts lies in
    1000..9999 and has four pairwise distinct decimal digits, each between 1
    and 9. *)
Theorem accepted_combination_digits (v : Z) (ds : list Z) :
  separateCombinationDigits v = Ok ds ->
  validateCombination ds = Ok tt ->
  1000 <= v <= 9999
  /\ length ds = 4%nat
  /\ Forall (fun d => 1 <= d <= 9) ds
  /\ NoDup ds.
Proof.
  intros Hsep Hval.
  apply separateCombinationDigits_inv in Hsep. destruct Hsep as [Hv ->].
  apply validateCombination_ok_distinct in Hval.
  split; [exact Hv |]. split; [reflexivity |].
  split.
  - repeat constructor; Z.to_euclidean_division_equations; lia.
  - repeat constructor; cbn; intuition lia.
Qed.

Lemma accepted_combination_digits_witness :
  1000 <= 1289 <= 9999
  /\ length [1; 2; 8; 9] = 4%nat
  /\ Forall (fun d => 1 <= d <= 9) [1; 2; 8; 9]
  /\ NoDup [1; 2; 8; 9].
Proof.
  apply (accepted_combination_digits 1289 [1; 2; 8; 9]); reflexivity.
Defined.

(** C3, refuted as stated: 1289 decodes to [1; 2; 8; 9], which the
    validation accepts although 8 and 9 exceed 7. *)
Lemma accepted_combination_digit_above_7 :
  ~ (forall ds,
        separateCombinationDigits 1289 = Ok ds ->
        validateCombination ds = Ok tt ->
        Forall (fun d => 0 <= d <= 7) ds).
Proof.
  intros H. specialize (H [1; 2; 8; 9] eq_refl eq_refl).
  inversion H as [| ? ? _ H1]; subst.
  inversion H1 as [| ? ? _ H2]; subst.
  inversion H2 as [| ? ? H8 _]; subst. lia.
Qed.

(** ** Properties of the state-word codec *)

(** C8: on field elements, [compressTurnCountMaxAttemptSolved] fails when
    the turn count or the maximum of attempts is 100 or more or the solved
    flag is neither 0 nor 1; otherwise it returns
    [turnCount * 10000 + maxAttempts * 100 + solvedFlag], and
    [separateTurnCountAndMaxAttemptSolved] of that word gives the three
    values back. *)
Theorem turn_word_pack_unpack (turnCount maxAttempts solvedFlag : Z) :
  Field.wf turnCount -> Field.wf maxAttempts -> Field.wf solvedFlag ->
  (100 <= turnCount \/ 100 <= maxAttempts
   \/ (solvedFlag <> 0 /\ solvedFlag <> 1) ->
   exists e,
     compressTurnCountMaxAttemptSolved [turnCount; maxAttempts; solvedFlag]
     = Err e)
  /\ (turnCount < 100 -> maxAttempts < 100 ->
      solvedFlag = 0 \/ solvedFlag = 1 ->
      compressTurnCountMaxAttemptSolved [turnCount; maxAttempts; solvedFlag]
      = Ok (turnCount * 10000 + maxAttempts * 100 + solvedFlag)
      /\ separateTurnCountAndMaxAttemptSolved
           (turnCount * 10000 + maxAttempts * 100 + solvedFlag)
         = Ok [turnCount; maxAttempts; solvedFlag]).
Proof.
  unfold Field.wf. intros Ht Hm Hs.
  assert (pack : forall t m s, 0 <= t < 100 -> 0 <= m < 100 -> 0 <= s < 2 ->
             compressTurnCountMaxAttemptSolved [t; m; s]
             = Ok (t * 10000 + m * 100 + s)).
  { intros t m s Ht' Hm' Hs'.
    cbv [compressTurnCountMaxAttemptSolved array_get nth_error bind
         Field.assertLessThan Field.assertTrue Field.lessThan].
    destruct (Z.ltb_spec t 100); [| lia].
    destruct (Z.ltb_spec m 100); [| lia].
    destruct (Z.ltb_spec s 2); [| lia].
    field_small. f_equal. lia. }
  split.
  - intros H.
    cbv [compressTurnCountMaxAttemptSolved array_get nth_error bind
         Field.assertLessThan Field.assertTrue Field.lessThan].
    destruct (Z.ltb_spec turnCount 100); [| eauto].
    destruct (Z.ltb_spec maxAttempts 100); [| eauto].
    destruct (Z.ltb_spec solvedFlag 2); [| eauto].
    lia.
  - intros Ht' Hm' Hs'. split; [apply pack; lia |].
    unfold separateTurnCountAndMaxAttemptSolved.
    set (w := turnCount * 10000 + maxAttempts * 100 + solvedFlag).
    assert (Hw : 0 <= w) by (unfold w; lia).
    assert (Hq : 0 <= Z.quot w 100) by (apply Z.quot_pos; lia).
    assert (D0 : Z.quot w 10000 = turnCount).
    { rewrite Z.quot_div_nonneg by lia.
      unfold w; Z.to_euclidean_division_equations; lia. }
    assert (D1 : Z.rem (Z.quot w 100) 100 = maxAttempts).
    { rewrite Z.rem_mod_nonneg by lia. rewrite Z.quot_div_nonneg by lia.
      unfold w; Z.to_euclidean_division_equations; lia. }
    assert (D2 : Z.rem w 100 = solvedFlag).
    { rewrite Z.rem_mod_nonneg by lia.
      unfold w; Z.to_euclidean_division_equations; lia. }
    rewrite D0, D1, D2, pack by lia.
    cbn [bind]. unfold Field.assertEquals, Field.equals, Field.assertTrue.
    fold w. rewrite Z.eqb_refl. reflexivity.
Qed.

Lemma turn_word_pack_unpack_witness :
  (exists e, compressTurnCountMaxAttemptSolved [100; 7; 0] = Err e)
  /\ compressTurnCountMaxAttemptSolved [3; 7; 1] = Ok 30701
  /\ separateTurnCountAndMaxAttemptSolved 30701 = Ok [3; 7; 1].
Proof.
  split.
  - apply (turn_word_pack_unpack 100 7 0);
      unfold Field.wf, Field.p; lia.
  - apply (turn_word_pack_unpack 3 7 1);
      unfold Field.wf, Field.p; lia.
Defined.

(** ** Properties of the indexed read and write *)

Lemma for_each_app {S : Type} (xs ys : list nat)
  (body : nat -> S -> result S) (s : S) :
  for_each (xs ++ ys) body s = s' <- for_each xs body s ;; for_each ys body s'.
Proof.
  revert s. induction xs as [| x xs IH]; intros s; cbn; [reflexivity |].
  destruct (body x s); cbn; [apply IH | reflexivity].
Qed.

Lemma array_get_nth {A : Type} (arr : list A) (i : nat) (d : A) :
  (i < length arr)%nat -> array_get arr i = Ok (nth i arr d).
Proof.
  intros H. unfold array_get. now rewrite (nth_error_nth' arr d H).
Qed.

Lemma array_set_push {A : Type} (arr : list A) (x : A) :
  array_set arr (length arr) x = Ok (arr ++ [x]).
Proof.
  unfold array_set. rewrite Nat.leb_refl, firstn_all.
  rewrite skipn_all2 by lia. reflexivity.
Qed.

Section IndexedAccess.

Variable fieldArray : list Z.
Variable index : Z.
Hypothesis elements_wf : Forall Field.wf fieldArray.
Hypothesis index_wf : Field.wf index.
Hypothesis length_small : Z.of_nat (length fieldArray) < Field.p.

Local Abbreviation read_body :=
  (fun (i : nat) '(totalIndexMatch, selectedValue) =>
     let isMatch :=
       Field.toField (Field.equals index (Field.of_Z (Z.of_nat i))) in
     ai <- array_get fieldArray i ;;
     let matchingValue := Field.mul isMatch ai in
     Ok (Field.add totalIndexMatch isMatch,
         Field.add selectedValue matchingValue)).

Lemma nth_wf (i : nat) : Field.wf (nth i fieldArray 0).
Proof.
  destruct (Nat.lt_ge_cases i (length fieldArray)) as [H | H].
  - now apply (proj1 (Forall_nth _ _) elements_wf).
  - rewrite nth_overflow by exact H. unfold Field.wf, Field.p. lia.
Qed.

(** The positions that do not match leave both accumulators as they are. *)
Lemma read_loop_no_match (m : nat) :
  forall (k : nat) (tot sel : Z),
    Field.wf tot -> Field.wf sel ->
    (k + m <= length fieldArray)%nat ->
    (forall i, (k <= i < k + m)%nat -> index <> Z.of_nat i) ->
    for_each (seq k m) read_body (tot, sel) = Ok (tot, sel).
Proof.
  induction m as [| m IH]; intros k tot sel Ht Hs Hlen Hne; [reflexivity |].
  cbn [seq for_each].
  rewrite (array_get_nth fieldArray k 0) by lia. cbn [bind].
  rewrite (of_Z_small (Z.of_nat k)) by lia. unfold Field.equals.
  destruct (Z.eqb_spec index (Z.of_nat k)) as [E | _];
    [exfalso; apply (Hne k); [lia | exact E] |].
  cbn [Field.toField].
  unfold Field.wf in Ht, Hs.
  rewrite (mul_small 0) by (unfold Field.p; lia).
  rewrite !add_small by lia. rewrite !Z.add_0_r.
  apply IH; try assumption; [lia |].
  intros i Hi. apply Hne. lia.
Qed.

Lemma getElementAtIndex_correct :
  getElementAtIndex fieldArray index
  = if index <? Z.of_nat (length fieldArray)
    then Ok (nth (Z.to_nat index) fieldArray 0)
    else Err IndexNoMatch.
Proof.
  pose proof index_wf as Hi. unfold Field.wf in Hi.
  assert (Hz : Field.wf 0) by (unfold Field.wf, Field.p; lia).
  unfold getElementAtIndex. rewrite (of_Z_small 0) by exact Hz.
  destruct (Z.ltb_spec index (Z.of_nat (length fieldArray))) as [Hin | Hout].
  - set (i := Z.to_nat index).
    assert (Ei : Z.of_nat i = index) by (unfold i; lia).
    clearbody i.
    replace (length fieldArray) with (i + (1 + (length fieldArray - i - 1)))%nat
      at 1 by lia.
    rewrite !seq_app, !for_each_app.
    rewrite read_loop_no_match; try assumption; try lia. cbn [bind].
    rewrite for_each_app. cbn [seq for_each Nat.add].
    rewrite (array_get_nth fieldArray i 0) by lia. cbn [bind].
    rewrite (of_Z_small (Z.of_nat i)) by lia. unfold Field.equals.
    replace (index =? Z.of_nat i) with true by (symmetry; apply Z.eqb_eq; lia).
    cbn [Field.toField].
    pose proof (nth_wf i) as Hn. unfold Field.wf in Hn.
    rewrite mul_small by lia. rewrite !add_small by lia.
    rewrite Z.add_0_l, Z.mul_1_l.
    rewrite read_loop_no_match; try assumption; try lia.
    + reflexivity.
    + unfold Field.wf, Field.p. lia.
  - rewrite read_loop_no_match; try assumption; try lia. reflexivity.
Qed.

Variable newValue : Z.

Local Abbreviation write_body :=
  (fun (i : nat) (updatedFieldArray : list Z) =>
     ai <- array_get fieldArray i ;;
     array_set updatedFieldArray i
       (Field.ite (Field.equals index (Field.of_Z (Z.of_nat i))) newValue ai)).

Lemma write_loop (m : nat) :
  forall (k : nat) (updated : list Z),
    length updated = k ->
    (k + m <= length fieldArray)%nat ->
    for_each (seq k m) write_body updated
    = Ok (updated ++ written fieldArray index newValue (seq k m)).
Proof.
  induction m as [| m IH]; intros k updated Hk Hlen.
  - cbn. now rewrite app_nil_r.
  - cbn [seq for_each].
    rewrite (array_get_nth fieldArray k 0) by lia. cbn [bind].
    rewrite <- Hk at 1. rewrite array_set_push. cbn [bind].
    rewrite IH by (rewrite ?length_app; cbn; lia).
    rewrite <- app_assoc. cbn [app written map].
    rewrite (of_Z_small (Z.of_nat k)) by lia. reflexivity.
Qed.

Lemma updateElementAtIndex_correct :
  updateElementAtIndex newValue fieldArray index
  = if index <? Z.of_nat (length fieldArray)
    then Ok (written fieldArray index newValue (seq 0 (length fieldArray)))
    else Err IndexOutOfBounds.
Proof.
  unfold updateElementAtIndex, Field.assertLessThan, Field.lessThan.
  rewrite (of_Z_small (Z.of_nat (length fieldArray))) by lia.
  destruct (index <? Z.of_nat (length fieldArray)); cbn; [| reflexivity].
  now rewrite write_loop.
Qed.

Lemma written_length :
  length (written fieldArray index newValue (seq 0 (length fieldArray)))
                       = length fieldArray.
Proof. unfold written. now rewrite length_map, length_seq. Qed.

Lemma written_nth (j : nat) :
  (j < length fieldArray)%nat ->
  nth j (written fieldArray index newValue (seq 0 (length fieldArray))) 0
  = if index =? Z.of_nat j then newValue else nth j fieldArray 0.
Proof.
  intros Hj. unfold written.
  set (f := fun j0 : nat =>
              if index =? Z.of_nat j0 then newValue else nth j0 fieldArray 0).
  rewrite (nth_indep _ 0 (f 0%nat))
    by (rewrite length_map, length_seq; exact Hj).
  rewrite (map_nth f), seq_nth by exact Hj. reflexivity.
Qed.

Lemma written_wf :
  Field.wf newValue ->
  Forall Field.wf
    (written fieldArray index newValue (seq 0 (length fieldArray))).
Proof.
  intros Hx. unfold written. apply Forall_map, Forall_forall.
  intros j _. destruct (index =? Z.of_nat j); [exact Hx | apply nth_wf].
Qed.

End IndexedAccess.

(** C6: in an array of [N] field elements and for an index [i] below [N],
    [updateElementAtIndex] returns an array in which [getElementAtIndex]
    reads the new element at [i] and, at every other index, what it reads in
    the original array (the original element below [N]); an index of [N] or
    more makes both operations fail. *)
Theorem indexed_write_then_read (fieldArray : list Z) (newValue i : Z) :
  Forall Field.wf fieldArray ->
  Field.wf newValue ->
  Z.of_nat (length fieldArray) < Field.p ->
  0 <= i < Z.of_nat (length fieldArray) ->
  (exists updated,
      updateElementAtIndex newValue fieldArray i = Ok updated
      /\ getElementAtIndex updated i = Ok newValue
      /\ (forall j, Field.wf j -> j <> i ->
            getElementAtIndex updated j = getElementAtIndex fieldArray j)
      /\ (forall j, 0 <= j < Z.of_nat (length fieldArray) ->
            getElementAtIndex fieldArray j
            = Ok (nth (Z.to_nat j) fieldArray 0)))
  /\ (forall k, Field.wf k -> Z.of_nat (length fieldArray) <= k ->
        getElementAtIndex fieldArray k = Err IndexNoMatch
        /\ updateElementAtIndex newValue fieldArray k = Err IndexOutOfBounds).
Proof.
  intros Hwf Hx Hlen Hi.
  assert (Hiwf : Field.wf i) by (unfold Field.wf; lia).
  split.
  - exists (written fieldArray i newValue (seq 0 (length fieldArray))).
    pose proof (written_wf fieldArray i Hwf newValue Hx) as Hwf'.
    pose proof (written_length fieldArray i newValue) as Hlen'.
    split; [| split; [| split]].
    + rewrite updateElementAtIndex_correct by assumption.
      destruct (Z.ltb_spec i (Z.of_nat (length fieldArray))); [reflexivity | lia].
    + rewrite getElementAtIndex_correct by (rewrite ?Hlen'; assumption).
      rewrite Hlen'.
      destruct (Z.ltb_spec i (Z.of_nat (length fieldArray))); [| lia].
      rewrite written_nth by lia.
      replace (Z.of_nat (Z.to_nat i)) with i by lia.
      now rewrite Z.eqb_refl.
    + intros j Hj Hne.
      rewrite !getElementAtIndex_correct by (rewrite ?Hlen'; assumption).
      rewrite Hlen'.
      destruct (Z.ltb_spec j (Z.of_nat (length fieldArray))); [| reflexivity].
      unfold Field.wf in Hj.
      rewrite written_nth by lia.
      destruct (Z.eqb_spec i (Z.of_nat (Z.to_nat j))); [lia | reflexivity].
    + intros j Hj.
      rewrite getElementAtIndex_correct
        by (try assumption; unfold Field.wf; lia).
      destruct (Z.ltb_spec j (Z.of_nat (length fieldArray))); [reflexivity | lia].
  - intros k Hk Hout. split.
    + rewrite getElementAtIndex_correct by assumption.
      destruct (Z.ltb_spec k (Z.of_nat (length fieldArray))); [lia | reflexivity].
    + rewrite updateElementAtIndex_correct by assumption.
      destruct (Z.ltb_spec k (Z.of_nat (length fieldArray))); [lia | reflexivity].
Qed.

Lemma indexed_write_then_read_witness :
  (exists updated,
      updateElementAtIndex 9 [4; 5; 6] 1 = Ok updated
      /\ getElementAtIndex updated 1 = Ok 9
      /\ (forall j, Field.wf j -> j <> 1 ->
            getElementAtIndex updated j = getElementAtIndex [4; 5; 6] j)
      /\ (forall j, 0 <= j < Z.of_nat (length [4; 5; 6]) ->
            getElementAtIndex [4; 5; 6] j = Ok (nth (Z.to_nat j) [4; 5; 6] 0)))
  /\ (forall k, Field.wf k -> Z.of_nat (length [4; 5; 6]) <= k ->
        getElementAtIndex [4; 5; 6] k = Err IndexNoMatch
        /\ updateElementAtIndex 9 [4; 5; 6] k = Err IndexOutOfBounds).
Proof.
  apply (indexed_write_then_read [4; 5; 6] 9 1).
  - repeat constructor; unfold Field.p; lia.
  - unfold Field.wf, Field.p; lia.
  - reflexivity.
  - cbn; lia.
Defined.

(** ** Little-endian bit lists *)

Section Bits.

Import Field.

Lemma length_bits_le (n : nat) : forall x, length (bits_le n x) = n.
Proof. induction n as [| n IH]; intros x; cbn; [| rewrite IH]; reflexivity. Qed.

Lemma of_bits_le_bound (bs : list bool) :
  0 <= of_bits_le bs < 2 ^ Z.of_nat (length bs).
Proof.
  induction bs as [| b bs IH]; [cbn; lia |].
  cbn [of_bits_le length]. rewrite Nat2Z.inj_succ, Z.pow_succ_r by lia.
  destruct b; cbn [Z.b2z]; lia.
Qed.

Lemma of_bits_le_app (xs ys : list bool) :
  of_bits_le (xs ++ ys)
  = of_bits_le xs + 2 ^ Z.of_nat (length xs) * of_bits_le ys.
Proof.
  induction xs as [| b xs IH]; [cbn [app of_bits_le length]; lia |].
  cbn [app of_bits_le length]. rewrite IH.
  rewrite Nat2Z.inj_succ, Z.pow_succ_r by lia. ring.
Qed.

Lemma of_bits_le_bits_le (n : nat) :
  forall x, of_bits_le (bits_le n x) = x mod 2 ^ Z.of_nat n.
Proof.
  induction n as [| n IH]; intros x.
  - cbn. now rewrite Z.mod_1_r.
  - cbn [bits_le of_bits_le]. rewrite IH.
    rewrite Nat2Z.inj_succ, Z.pow_succ_r by lia.
    rewrite Z.rem_mul_r by lia.
    rewrite Z.div2_div, <- Z.bit0_odd, Z.bit0_mod. reflexivity.
Qed.

Lemma bits_le_add (n m : nat) :
  forall x, bits_le (n + m) x = bits_le n x ++ bits_le m (x / 2 ^ Z.of_nat n).
Proof.
  induction n as [| n IH]; intros x.
  - cbn. now rewrite Z.div_1_r.
  - cbn [Nat.add bits_le app]. rewrite IH. do 3 f_equal.
    rewrite Nat2Z.inj_succ, Z.pow_succ_r by lia.
    rewrite Z.div2_div, Z.div_div by lia. reflexivity.
Qed.

(** A slice of the bits of [x] is the bits of a shifted [x]. *)
Lemma slice_bits_le (n a m : nat) (x : Z) :
  (a + m <= n)%nat ->
  slice (bits_le n x) a (a + m) = bits_le m (x / 2 ^ Z.of_nat a).
Proof.
  intros H. unfold slice.
  replace n with (a + (m + (n - a - m)))%nat by lia.
  rewrite bits_le_add.
  rewrite skipn_app, skipn_all2 by (rewrite length_bits_le; lia).
  rewrite length_bits_le, Nat.sub_diag. cbn [skipn app].
  rewrite bits_le_add.
  replace (a + m - a)%nat with m by lia.
  rewrite firstn_app, length_bits_le, Nat.sub_diag.
  rewrite firstn_all2 by (rewrite length_bits_le; lia).
  cbn [firstn]. now rewrite app_nil_r.
Qed.

Lemma toBits_ok (x : Z) (n : nat) :
  (n <= maxBits)%nat -> x < 2 ^ Z.of_nat n ->
  toBits x n = Ok (bits_le n x).
Proof.
  intros Hn Hx. unfold toBits.
  destruct (Nat.ltb_spec maxBits n); [lia |].
  destruct (Z.ltb_spec x (2 ^ Z.of_nat n)); [reflexivity | lia].
Qed.

Lemma fromBits_ok (bs : list bool) :
  (length bs <= maxBits)%nat -> fromBits bs = Ok (of_bits_le bs).
Proof.
  intros Hn. unfold fromBits.
  destruct (Nat.ltb_spec maxBits (length bs)); [lia |].
  f_equal. apply of_Z_small.
  pose proof (of_bits_le_bound bs) as Hb. pose proof p_large as Hp.
  assert (2 ^ Z.of_nat (length bs) <= 2 ^ 254)
    by (apply Z.pow_le_mono_r; unfold maxBits in Hn; lia).
  lia.
Qed.

End Bits.

Lemma mapM_ok {A B : Type} (f : A -> result B) (g : A -> B) (xs : list A) :
  Forall (fun x => f x = Ok (g x)) xs -> mapM f xs = Ok (map g xs).
Proof.
  induction 1 as [| x xs Hx _ IH]; [reflexivity |].
  cbn. now rewrite Hx, IH.
Qed.

(** ** Properties of the history packer *)

Lemma sum_map_scale (c : Z) (f g : nat -> Z) (l : list nat) :
  (forall k, f k = c * g k) ->
  fold_right Z.add 0 (map f l) = c * fold_right Z.add 0 (map g l).
Proof.
  intros H. induction l as [| k l IH]; cbn; [lia |].
  rewrite IH, H. ring.
Qed.

Lemma little_endian_sum_cons (W : nat) (e : Z) (es : list Z) :
  little_endian_sum W (e :: es)
  = e + 2 ^ Z.of_nat W * little_endian_sum W es.
Proof.
  unfold little_endian_sum. cbn [length seq map fold_right nth].
  rewrite Z.mul_0_r, Z.pow_0_r, Z.mul_1_r. f_equal.
  rewrite <- seq_shift, map_map.
  apply sum_map_scale. intros k. cbn [nth].
  rewrite Nat2Z.inj_succ, Z.mul_succ_r, Z.pow_add_r by lia. ring.
Qed.

Lemma little_endian_sum_bound (W : nat) (es : list Z) :
  Forall (fun e => 0 <= e < 2 ^ Z.of_nat W) es ->
  0 <= little_endian_sum W es < 2 ^ (Z.of_nat (length es) * Z.of_nat W).
Proof.
  induction 1 as [| e es He _ IH]; [cbn; lia |].
  rewrite little_endian_sum_cons. cbn [length].
  rewrite Nat2Z.inj_succ, Z.mul_succ_l, Z.pow_add_r by lia.
  nia.
Qed.

Lemma of_bits_le_concat (W : nat) (es : list Z) :
  Forall (fun e => 0 <= e < 2 ^ Z.of_nat W) es ->
  Field.of_bits_le (concat (map (Field.bits_le W) es))
  = little_endian_sum W es.
Proof.
  induction 1 as [| e es He _ IH]; [reflexivity |].
  cbn [map concat]. rewrite of_bits_le_app, length_bits_le, IH.
  rewrite of_bits_le_bits_le, Z.mod_small by exact He.
  now rewrite little_endian_sum_cons.
Qed.

Lemma length_concat_bits (W : nat) (es : list Z) :
  length (concat (map (Field.bits_le W) es)) = (length es * W)%nat.
Proof.
  induction es as [| e es IH]; [reflexivity |].
  cbn [map concat length]. rewrite length_app, length_bits_le, IH. lia.
Qed.

Lemma serialize_correct (fields : list Z) (range : nat) :
  Forall (fun e => 0 <= e < 2 ^ Z.of_nat range) fields ->
  (length fields * range <= Field.maxBits)%nat ->
  serialize fields range = Ok (little_endian_sum range fields).
Proof.
  intros Hf Hlen. unfold serialize.
  rewrite (mapM_ok _ (Field.bits_le range)).
  - cbn [bind]. rewrite fromBits_ok by (rewrite length_concat_bits; exact Hlen).
    now rewrite of_bits_le_concat.
  - destruct fields as [| e fields]; [constructor |].
    cbn [length] in Hlen.
    eapply Forall_impl; [| exact Hf].
    intros x Hx. apply toBits_ok; [lia | apply Hx].
Qed.

(** C4 (as the code has it): for [N] elements below [2^W], with [N*W] at
    most 254, [serialize] returns the aggregate whose least-significant
    [W]-bit field is the first element: the sum of [e_k * 2^(W*k)], so that
    element 0 occupies the lowest-order bits of the [N*W]-bit aggregate. *)
Theorem serialize_little_endian (fields : list Z) (range : nat) :
  Forall (fun e => 0 <= e < 2 ^ Z.of_nat range) fields ->
  (length fields * range <= 254)%nat ->
  serialize fields range = Ok (little_endian_sum range fields)
  /\ 0 <= little_endian_sum range fields
       < 2 ^ (Z.of_nat (length fields) * Z.of_nat range)
  /\ (forall e rest, fields = e :: rest ->
        little_endian_sum range fields mod 2 ^ Z.of_nat range = e).
Proof.
  intros Hf Hlen. split; [now apply serialize_correct |].
  split; [now apply little_endian_sum_bound |].
  intros e rest ->. rewrite little_endian_sum_cons.
  inversion Hf as [| ? ? He _]; subst.
  rewrite (Z.mul_comm (2 ^ Z.of_nat range)), Z.mod_add by lia.
  now apply Z.mod_small.
Qed.

Lemma serialize_little_endian_witness :
  serialize [1234; 5678; 9012] 14 = Ok (little_endian_sum 14 [1234; 5678; 9012])
  /\ 0 <= little_endian_sum 14 [1234; 5678; 9012]
       < 2 ^ (Z.of_nat (length [1234; 5678; 9012]) * Z.of_nat 14)
  /\ (forall e rest, [1234; 5678; 9012] = e :: rest ->
        little_endian_sum 14 [1234; 5678; 9012] mod 2 ^ Z.of_nat 14 = e).
Proof.
  apply (serialize_little_endian [1234; 5678; 9012] 14).
  - repeat constructor; cbn; lia.
  - cbn; lia.
Defined.

(** Past 254 bits [Field.fromBits] refuses the bit list, whatever the
    elements are. *)
Example serialize_too_wide : serialize (repeat 0 255) 1 = Err BitLength.
Proof. reflexivity. Qed.

(** C4, refuted as stated: the two one-bit elements [1; 0] pack to 1, the
    first element in the low bit, and not to [1 * 2^1 + 0]. *)
Lemma serialize_not_big_endian :
  Forall (fun e => 0 <= e < 2 ^ Z.of_nat 1) [1; 0]
  /\ big_endian_sum 1 [1; 0] = 2
  /\ serialize [1; 0] 1 <> Ok (big_endian_sum 1 [1; 0]).
Proof.
  split; [repeat constructor; cbn; lia |].
  split; [reflexivity |].
  cbn. discriminate.
Qed.

(** The chunking loop on [n] whole chunks: with fuel to spare it returns the
    [n] consecutive slices. *)
Lemma chunk_loop_whole (packedBits : list bool) (chunkSize : nat) (m : nat) :
  (0 < chunkSize)%nat ->
  forall (k fuel : nat) (acc : list (list bool)),
    (m < fuel)%nat ->
    length packedBits = ((k + m) * chunkSize)%nat ->
    chunk_loop fuel packedBits chunkSize (k * chunkSize) acc
    = Ok (acc ++ map (fun j => slice packedBits (j * chunkSize)
                                 (j * chunkSize + chunkSize))
                   (seq k m)).
Proof.
  intros Hc. induction m as [| m IH]; intros k fuel acc Hfuel Hlen.
  - destruct fuel as [| fuel]; [lia |]. cbn [chunk_loop seq map].
    destruct (Nat.ltb_spec (k * chunkSize) (length packedBits)); [lia |].
    now rewrite app_nil_r.
  - destruct fuel as [| fuel]; [lia |]. cbn [chunk_loop seq map].
    destruct (Nat.ltb_spec (k * chunkSize) (length packedBits)); [| nia].
    replace (k * chunkSize + chunkSize)%nat with (S k * chunkSize)%nat by lia.
    rewrite IH by lia.
    rewrite <- app_assoc. cbn [app].
    replace (S k * chunkSize)%nat with (k * chunkSize + chunkSize)%nat by lia.
    reflexivity.
Qed.

Lemma deserialize_correct (v : Z) (n chunkSize : nat) :
  (0 < chunkSize)%nat ->
  (n * chunkSize <= Field.maxBits)%nat ->
  0 <= v < 2 ^ Z.of_nat (n * chunkSize) ->
  deserialize v (n * chunkSize) chunkSize
  = Ok (map (slot chunkSize v) (seq 0 n)).
Proof.
  intros Hc Hmax Hv. unfold deserialize.
  rewrite toBits_ok by lia. cbn [bind].
  rewrite (chunk_loop_whole _ chunkSize n Hc 0 _ [])
    by (rewrite length_bits_le; nia).
  cbn [bind app]. rewrite (mapM_ok _ Field.of_bits_le).
  - f_equal. rewrite map_map. apply map_ext_in.
    intros j Hj. apply in_seq in Hj.
    rewrite slice_bits_le by nia.
    rewrite of_bits_le_bits_le. unfold slot.
    do 3 f_equal. lia.
  - apply Forall_map, Forall_forall. intros j Hj. apply in_seq in Hj.
    apply fromBits_ok.
    rewrite slice_bits_le, length_bits_le by nia. nia.
Qed.

Lemma deserialize_does_not_fit (v : Z) (size chunkSize : nat) :
  (size <= Field.maxBits)%nat ->
  2 ^ Z.of_nat size <= v ->
  deserialize v size chunkSize = Err DoesNotFit.
Proof.
  intros Hs Hv. unfold deserialize, Field.toBits.
  destruct (Nat.ltb_spec Field.maxBits size); [lia |].
  destruct (Z.ltb_spec v (2 ^ Z.of_nat size)); [lia | reflexivity].
Qed.

Lemma slot_bound (W : nat) (v : Z) (j : nat) : 0 <= slot W v j < 2 ^ Z.of_nat W.
Proof. unfold slot. apply Z.mod_pos_bound. lia. Qed.

(** The slots of a packed sequence are its elements, then zeros. *)
Lemma slot_little_endian_sum (W : nat) (es : list Z) :
  Forall (fun e => 0 <= e < 2 ^ Z.of_nat W) es ->
  forall j, slot W (little_endian_sum W es) j = nth j es 0.
Proof.
  induction 1 as [| e es He Hes IH]; intros j.
  - unfold slot, little_endian_sum. cbn [length seq map fold_right].
    rewrite Zdiv_0_l, Zmod_0_l. now destruct j.
  - rewrite little_endian_sum_cons. destruct j as [| j].
    + unfold slot. cbn [nth].
      rewrite Z.mul_0_r, Z.pow_0_r, Z.div_1_r.
      rewrite (Z.mul_comm (2 ^ Z.of_nat W)), Z.mod_add by lia.
      now apply Z.mod_small.
    + cbn [nth]. rewrite <- IH. unfold slot. f_equal.
      replace (Z.of_nat W * Z.of_nat (S j))
        with (Z.of_nat W + Z.of_nat W * Z.of_nat j) by lia.
      rewrite Z.pow_add_r, <- Z.div_div by lia. f_equal.
      rewrite (Z.mul_comm (2 ^ Z.of_nat W)), Z.div_add by lia.
      rewrite Z.div_small by exact He. reflexivity.
Qed.

Lemma deserialize_fifteen (v : Z) (chunkSize : nat) :
  (0 < chunkSize)%nat ->
  (15 * chunkSize <= Field.maxBits)%nat ->
  0 <= v < 2 ^ Z.of_nat (15 * chunkSize) ->
  exists slots,
    deserialize v (15 * chunkSize) chunkSize = Ok slots
    /\ length slots = 15%nat
    /\ Forall (fun s => 0 <= s < 2 ^ Z.of_nat chunkSize) slots.
Proof.
  intros Hc Hmax Hv. eexists. split; [now apply deserialize_correct |].
  split; [now rewrite length_map, length_seq |].
  apply Forall_map, Forall_forall. intros j _. apply slot_bound.
Qed.

Lemma history_round_trip (W : nat) (history : list Z) :
  (0 < W)%nat ->
  (15 * W <= Field.maxBits)%nat ->
  length history = MAX_ATTEMPTS ->
  Forall (fun e => 0 <= e < 2 ^ Z.of_nat W) history ->
  exists v,
    serialize history W = Ok v
    /\ 0 <= v < 2 ^ Z.of_nat (MAX_ATTEMPTS * W)
    /\ deserialize v (15 * W) W = Ok (history ++ repeat 0 8).
Proof.
  intros HW Hmax Hlen Hall.
  exists (little_endian_sum W history).
  pose proof (little_endian_sum_bound W history Hall) as Hb.
  rewrite Hlen, <- Nat2Z.inj_mul in Hb.
  split; [apply serialize_correct; [exact Hall | rewrite Hlen; unfold MAX_ATTEMPTS; lia] |].
  split; [exact Hb |].
  rewrite deserialize_correct; try assumption.
  - f_equal.
    rewrite (map_ext _ (fun j => nth j history 0))
      by (intros j; now apply slot_little_endian_sum).
    unfold MAX_ATTEMPTS in Hlen.
    do 7 (destruct history as [| ? history]; [discriminate Hlen |]).
    destruct history; [reflexivity | discriminate Hlen].
  - split; [lia |].
    eapply Z.lt_le_trans; [apply Hb |].
    apply Z.pow_le_mono_r; unfold MAX_ATTEMPTS; lia.
Qed.

(** C2 (as the code has it): the history deserializers read an aggregate of
    210 = 15 * 14 bits, respectively 120 = 15 * 8 bits, and return exactly 15
    slots of 14, respectively 8, bits.  A history of [MAX_ATTEMPTS] = 7
    entries packs into 98, respectively 56, bits, and deserializing it gives
    the 7 entries followed by 8 zero slots. *)
Theorem history_deserializes_to_fifteen_slots :
  (forall v, 0 <= v < 2 ^ 210 ->
     exists slots,
       deserializeCombinationHistory v = Ok slots
       /\ length slots = 15%nat
       /\ Forall (fun s => 0 <= s < 2 ^ 14) slots)
  /\ (forall v, 0 <= v < 2 ^ 120 ->
        exists slots,
          deserializeClueHistory v = Ok slots
          /\ length slots = 15%nat
          /\ Forall (fun s => 0 <= s < 2 ^ 8) slots)
  /\ (forall guesses,
        length guesses = MAX_ATTEMPTS ->
        Forall (fun g => 0 <= g < 2 ^ 14) guesses ->
        exists v,
          serializeCombinationHistory guesses = Ok v
          /\ 0 <= v < 2 ^ 98
          /\ deserializeCombinationHistory v = Ok (guesses ++ repeat 0 8))
  /\ (forall clues,
        length clues = MAX_ATTEMPTS ->
        Forall (fun c => 0 <= c < 2 ^ 8) clues ->
        exists v,
          serializeClueHistory clues = Ok v
          /\ 0 <= v < 2 ^ 56
          /\ deserializeClueHistory v = Ok (clues ++ repeat 0 8)).
Proof.
  split; [| split; [| split]].
  - intros v Hv.
    apply (deserialize_fifteen v 14); [lia | unfold Field.maxBits; lia | exact Hv].
  - intros v Hv.
    apply (deserialize_fifteen v 8); [lia | unfold Field.maxBits; lia | exact Hv].
  - intros guesses Hlen Hall.
    apply (history_round_trip 14); [lia | unfold Field.maxBits; lia | | ];
      assumption.
  - intros clues Hlen Hall.
    apply (history_round_trip 8); [lia | unfold Field.maxBits; lia | | ];
      assumption.
Qed.

Lemma history_deserializes_to_fifteen_slots_witness :
  (exists slots,
      deserializeCombinationHistory (2 ^ 98 - 1) = Ok slots
      /\ length slots = 15%nat
      /\ Forall (fun s => 0 <= s < 2 ^ 14) slots)
  /\ (exists v,
        serializeClueHistory [170; 0; 1; 2; 3; 4; 255] = Ok v
        /\ 0 <= v < 2 ^ 56
        /\ deserializeClueHistory v
           = Ok ([170; 0; 1; 2; 3; 4; 255] ++ repeat 0 8)).
Proof.
  split.
  - apply (proj1 history_deserializes_to_fifteen_slots (2 ^ 98 - 1)). lia.
  - apply (proj2 (proj2 (proj2 history_deserializes_to_fifteen_slots))
             [170; 0; 1; 2; 3; 4; 255]).
    + reflexivity.
    + repeat constructor; lia.
Defined.

(** C2, refuted as stated: the empty guess history deserializes to 15 slots,
    not to [MAX_ATTEMPTS] = 7, and so does the empty clue history. *)
Lemma history_not_seven_slots :
  ~ (exists slots,
        deserializeCombinationHistory 0 = Ok slots
        /\ length slots = MAX_ATTEMPTS)
  /\ ~ (exists slots,
          deserializeClueHistory 0 = Ok slots
          /\ length slots = MAX_ATTEMPTS).
Proof.
  split; intros [slots [H Hlen]];
    vm_compute in H; inversion H; subst; discriminate Hlen.
Qed.

(** ** The two-bit clue serialization *)

Lemma serializeClue_serialize (clue : list Z) :
  serializeClue clue = serialize clue 2.
Proof. reflexivity. Qed.

Lemma deserializeClue_correct (v : Z) :
  0 <= v < 2 ^ 8 ->
  deserializeClue v = Ok (map (slot 2 v) (seq 0 4)).
Proof.
  intros Hv. unfold deserializeClue.
  rewrite toBits_ok by (unfold Field.maxBits; lia). cbn [bind].
  change (slice (Field.bits_le 8 v) 0 2)
    with (slice (Field.bits_le 8 v) 0 (0 + 2)).
  change (slice (Field.bits_le 8 v) 2 4)
    with (slice (Field.bits_le 8 v) 2 (2 + 2)).
  change (slice (Field.bits_le 8 v) 4 6)
    with (slice (Field.bits_le 8 v) 4 (4 + 2)).
  change (slice (Field.bits_le 8 v) 6 8)
    with (slice (Field.bits_le 8 v) 6 (6 + 2)).
  rewrite !slice_bits_le by lia.
  rewrite !fromBits_ok by (rewrite length_bits_le; unfold Field.maxBits; lia).
  cbn [bind]. rewrite !of_bits_le_bits_le. reflexivity.
Qed.

Lemma clue_round_trip (clue : list Z) :
  length clue = 4%nat ->
  Forall (fun c => 0 <= c < 2 ^ 2) clue ->
  (v <- serializeClue clue ;; deserializeClue v) = Ok clue.
Proof.
  intros Hlen Hall.
  rewrite serializeClue_serialize, serialize_correct;
    [| exact Hall | rewrite Hlen; unfold Field.maxBits; lia].
  cbn [bind].
  pose proof (little_endian_sum_bound 2 clue Hall) as Hb.
  rewrite Hlen in Hb.
  rewrite deserializeClue_correct by exact Hb. f_equal.
  rewrite (map_ext _ (fun j => nth j clue 0))
    by (intros j; now apply slot_little_endian_sum).
  revert Hlen. clear. four_elements clue. reflexivity.
Qed.

(** C10: against a solution of four pairwise distinct digits every clue
    entry is at most 2, and serializing the clue at two bits per entry and
    deserializing it gives the clue back.  Without distinctness an entry can
    exceed 3, and the serialization then fails: the guess [1; 1; 1; 1]
    against the solution [1; 1; 1; 1] scores 5 everywhere. *)
Theorem clue_fits_two_bits :
  (forall guess solution,
      length guess = 4%nat ->
      length solution = 4%nat ->
      NoDup solution ->
      exists clue,
        getClueFromGuess guess solution = Ok clue
        /\ Forall (fun c => 0 <= c <= 2) clue
        /\ (v <- serializeClue clue ;; deserializeClue v) = Ok clue)
  /\ (exists guess solution clue,
         length guess = 4%nat
         /\ length solution = 4%nat
         /\ getClueFromGuess guess solution = Ok clue
         /\ Exists (fun c => 3 < c) clue
         /\ serializeClue clue = Err DoesNotFit).
Proof.
  split.
  - intros guess solution; four_elements guess; four_elements solution.
    rename z into g0, z0 into g1, z1 into g2, z2 into g3.
    rename z3 into s0, z4 into s1, z5 into s2, z6 into s3.
    intros Hnd.
    assert (Hd : s0 <> s1 /\ s0 <> s2 /\ s0 <> s3
                 /\ s1 <> s2 /\ s1 <> s3 /\ s2 <> s3).
    { inversion Hnd as [| ? ? N0 Hnd1]; subst.
      inversion Hnd1 as [| ? ? N1 Hnd2]; subst.
      inversion Hnd2 as [| ? ? N2 _]; subst.
      cbn in N0, N1, N2. intuition congruence. }
    eexists. split; [apply getClueFromGuess_four |].
    assert (Hall : Forall (fun c => 0 <= c <= 2)
                     (map (clue_rule [g0; g1; g2; g3] [s0; s1; s2; s3])
                        (seq 0 4))).
    { cbv [map seq clue_rule hit blows filter nth Nat.eqb negb andb].
      repeat constructor;
        repeat match goal with
               | |- context [Z.eqb ?a ?b] => destruct (Z.eqb_spec a b)
               end;
        cbn; lia. }
    split; [exact Hall |].
    apply clue_round_trip; [reflexivity |].
    eapply Forall_impl; [| exact Hall]. cbn. intros c Hc. lia.
  - exists [1; 1; 1; 1], [1; 1; 1; 1], [5; 5; 5; 5].
    repeat (split; [reflexivity |]).
    split; [constructor; lia | reflexivity].
Qed.

Lemma clue_fits_two_bits_witness :
  exists clue,
    getClueFromGuess [5; 7; 2; 6] [5; 6; 3; 4] = Ok clue
    /\ Forall (fun c => 0 <= c <= 2) clue
    /\ (v <- serializeClue clue ;; deserializeClue v) = Ok clue.
Proof.
  apply (proj1 clue_fits_two_bits [5; 7; 2; 6] [5; 6; 3; 4]);
    [reflexivity | reflexivity |].
  repeat constructor; cbn; intuition lia.
Defined.

(** * Further properties of the utilities *)

Example separate_reward_word :
  separateRewardAndFinalizeSlot (5 * 2 ^ 32 + 9)
  = Value {| rewardAmount := 5; finalizeSlot := 9 |}.
Proof. reflexivity. Qed.

(** ** The combination codec on every input *)

(** X1: [separateCombinationDigits] succeeds exactly on 1000..9999, where it
    returns four decimal digits, the first at least 1, that recompose to the
    input; everywhere else it fails on the four-digit assertion.  Its
    recomposition self-check never fails. *)
Theorem separateCombinationDigits_outcome (v : Z) :
  (1000 <= v <= 9999 ->
   exists d0 d1 d2 d3,
     separateCombinationDigits v = Ok [d0; d1; d2; d3]
     /\ 1 <= d0 <= 9 /\ 0 <= d1 <= 9 /\ 0 <= d2 <= 9 /\ 0 <= d3 <= 9
     /\ v = d0 * 1000 + d1 * 100 + d2 * 10 + d3)
  /\ (~ 1000 <= v <= 9999 -> separateCombinationDigits v = Err NotFourDigit).
Proof.
  split.
  - intros Hv. do 4 eexists.
    split; [apply separateCombinationDigits_ok; exact Hv |].
    repeat split; Z.to_euclidean_division_equations; lia.
  - intros Hv. unfold separateCombinationDigits.
    unfold Field.greaterThanOrEqual, Field.lessThanOrEqual.
    destruct (Z.leb_spec 1000 v), (Z.leb_spec v 9999);
      try reflexivity. lia.
Qed.

Lemma separateCombinationDigits_outcome_witness :
  (exists d0 d1 d2 d3,
      separateCombinationDigits 4071 = Ok [d0; d1; d2; d3]
      /\ 1 <= d0 <= 9 /\ 0 <= d1 <= 9 /\ 0 <= d2 <= 9 /\ 0 <= d3 <= 9
      /\ 4071 = d0 * 1000 + d1 * 100 + d2 * 10 + d3)
  /\ separateCombinationDigits 999 = Err NotFourDigit.
Proof.
  split.
  - apply (proj1 (separateCombinationDigits_outcome 4071)). lia.
  - apply (proj2 (separateCombinationDigits_outcome 999)). lia.
Defined.

(** X2: on arrays of four decimal digits [compressCombinationDigits] is
    injective: two such arrays with the same encoding are equal. *)
Theorem compressCombinationDigits_injective (ds ds' : list Z) :
  length ds = 4%nat -> length ds' = 4%nat ->
  Forall (fun d => 0 <= d <= 9) ds ->
  Forall (fun d => 0 <= d <= 9) ds' ->
  compressCombinationDigits ds = compressCombinationDigits ds' ->
  ds = ds'.
Proof.
  four_elements ds. four_elements ds'.
  intros Hd Hd' Heq.
  repeat match goal with
         | H : Forall _ (_ :: _) |- _ => inversion H; clear H; subst
         end.
  rewrite !compressCombinationDigits_decimal in Heq by assumption.
  injection Heq as Heq.
  repeat f_equal; lia.
Qed.

Lemma compressCombinationDigits_injective_witness : [1; 2; 8; 9] = [1; 2; 8; 9].
Proof.
  apply (compressCombinationDigits_injective [1; 2; 8; 9] [1; 2; 8; 9]);
    try reflexivity; repeat constructor; lia.
Defined.

(** X3: [compressCombinationDigits] reads the first four elements only: an
    array with fewer than four elements makes it fail on the missing one,
    and elements after the fourth do not change the result. *)
Theorem compressCombinationDigits_arity (ds : list Z) :
  ((length ds < 4)%nat -> compressCombinationDigits ds = Err Undefined)
  /\ (length ds = 4%nat ->
      forall extra,
        compressCombinationDigits (ds ++ extra) = compressCombinationDigits ds).
Proof.
  split.
  - intros H.
    do 4 (destruct ds as [| ? ds]; [reflexivity |]). cbn in H. lia.
  - four_elements ds. intros extra. reflexivity.
Qed.

Lemma compressCombinationDigits_arity_witness :
  compressCombinationDigits [1; 2; 3] = Err Undefined
  /\ compressCombinationDigits ([1; 2; 3; 4] ++ [5; 6])
     = compressCombinationDigits [1; 2; 3; 4].
Proof.
  split.
  - apply (proj1 (compressCombinationDigits_arity [1; 2; 3])). cbn. lia.
  - apply (proj2 (compressCombinationDigits_arity [1; 2; 3; 4])). reflexivity.
Defined.

(** ** The clue engine on validated solutions *)

Lemma checkIfSolved_four (c0 c1 c2 c3 : Z) :
  checkIfSolved [c0; c1; c2; c3]
  = Ok ((c0 =? 2) && (c1 =? 2) && (c2 =? 2) && (c3 =? 2)).
Proof. reflexivity. Qed.

Ltac clue_entries :=
  cbv [map seq clue_rule hit blows filter nth Nat.eqb negb andb].

Ltac case_eqb :=
  repeat match goal with
         | |- context [Z.eqb ?a ?b] => destruct (Z.eqb_spec a b)
         end.

(** One clue entry against three other, pairwise distinct, solution digits. *)
Lemma distinct_entry (g s a b c : Z) :
  s <> a -> s <> b -> s <> c -> a <> b -> a <> c -> b <> c ->
  let e := 2 * Z.b2z (g =? s)
           + Z.b2z (g =? a) + Z.b2z (g =? b) + Z.b2z (g =? c) in
  0 <= e <= 2 /\ (e = 2 <-> g = s).
Proof.
  intros. subst e. case_eqb; cbn; lia.
Qed.

Lemma distinct_solution_entries (g0 g1 g2 g3 s0 s1 s2 s3 : Z) :
  s0 <> s1 /\ s0 <> s2 /\ s0 <> s3 /\ s1 <> s2 /\ s1 <> s3 /\ s2 <> s3 ->
  exists c0 c1 c2 c3,
    map (clue_rule [g0; g1; g2; g3] [s0; s1; s2; s3]) (seq 0 4)
    = [c0; c1; c2; c3]
    /\ (0 <= c0 <= 2 /\ 0 <= c1 <= 2 /\ 0 <= c2 <= 2 /\ 0 <= c3 <= 2)
    /\ (c0 = 2 <-> g0 = s0) /\ (c1 = 2 <-> g1 = s1)
    /\ (c2 = 2 <-> g2 = s2) /\ (c3 = 2 <-> g3 = s3).
Proof.
  intros (H01 & H02 & H03 & H12 & H13 & H23).
  exists (2 * Z.b2z (g0 =? s0) + Z.b2z (g0 =? s1) + Z.b2z (g0 =? s2) + Z.b2z (g0 =? s3)),
         (2 * Z.b2z (g1 =? s1) + Z.b2z (g1 =? s0) + Z.b2z (g1 =? s2) + Z.b2z (g1 =? s3)),
         (2 * Z.b2z (g2 =? s2) + Z.b2z (g2 =? s0) + Z.b2z (g2 =? s1) + Z.b2z (g2 =? s3)),
         (2 * Z.b2z (g3 =? s3) + Z.b2z (g3 =? s0) + Z.b2z (g3 =? s1) + Z.b2z (g3 =? s2)).
  split.
  - clue_entries.
    repeat (apply f_equal2; [split_eqb; reflexivity |]). reflexivity.
  - pose proof (distinct_entry g0 s0 s1 s2 s3) as E0.
    pose proof (distinct_entry g1 s1 s0 s2 s3) as E1.
    pose proof (distinct_entry g2 s2 s0 s1 s3) as E2.
    pose proof (distinct_entry g3 s3 s0 s1 s2) as E3.
    cbv zeta in E0, E1, E2, E3.
    repeat split;
      try apply E0; try apply E1; try apply E2; try apply E3; congruence.
Qed.

Lemma NoDup_four (s0 s1 s2 s3 : Z) :
  NoDup [s0; s1; s2; s3] <->
  s0 <> s1 /\ s0 <> s2 /\ s0 <> s3 /\ s1 <> s2 /\ s1 <> s3 /\ s2 <> s3.
Proof.
  split.
  - intros Hnd.
    inversion Hnd as [| ? ? N0 Hnd1]; subst.
    inversion Hnd1 as [| ? ? N1 Hnd2]; subst.
    inversion Hnd2 as [| ? ? N2 _]; subst.
    cbn in N0, N1, N2. intuition congruence.
  - intros H. repeat constructor; cbn; intuition congruence.
Qed.

(** One clue entry, whatever the solution digits are. *)
Lemma any_entry (g s a b c : Z) :
  let e := 2 * Z.b2z (g =? s)
           + Z.b2z (g =? a) + Z.b2z (g =? b) + Z.b2z (g =? c) in
  0 <= e <= 5
  /\ (e = 0 <-> g <> s /\ g <> a /\ g <> b /\ g <> c)
  /\ (g = s -> 2 <= e).
Proof.
  intros. subst e. case_eqb; cbn; lia.
Qed.

(** X4: every clue entry lies between 0 and 5; it is 0 exactly when the
    guess digit does not occur in the solution, and at least 2 on a hit. *)
Theorem clue_entry_zero_iff_absent (guess solution : list Z) :
  length guess = 4%nat ->
  length solution = 4%nat ->
  exists clue,
    getClueFromGuess guess solution = Ok clue
    /\ forall i, (i < 4)%nat ->
         0 <= nth i clue 0 <= 5
         /\ (nth i clue 0 = 0 <-> ~ In (nth i guess 0) solution)
         /\ (nth i guess 0 = nth i solution 0 -> 2 <= nth i clue 0).
Proof.
  four_elements guess. four_elements solution.
  rename z into g0, z0 into g1, z1 into g2, z2 into g3.
  rename z3 into s0, z4 into s1, z5 into s2, z6 into s3.
  exists [2 * Z.b2z (g0 =? s0) + Z.b2z (g0 =? s1) + Z.b2z (g0 =? s2) + Z.b2z (g0 =? s3);
          2 * Z.b2z (g1 =? s1) + Z.b2z (g1 =? s0) + Z.b2z (g1 =? s2) + Z.b2z (g1 =? s3);
          2 * Z.b2z (g2 =? s2) + Z.b2z (g2 =? s0) + Z.b2z (g2 =? s1) + Z.b2z (g2 =? s3);
          2 * Z.b2z (g3 =? s3) + Z.b2z (g3 =? s0) + Z.b2z (g3 =? s1) + Z.b2z (g3 =? s2)].
  split.
  - rewrite getClueFromGuess_four. clue_entries. f_equal.
    repeat (apply f_equal2; [split_eqb; reflexivity |]). reflexivity.
  - intros i Hi.
    pose proof (any_entry g0 s0 s1 s2 s3) as E0.
    pose proof (any_entry g1 s1 s0 s2 s3) as E1.
    pose proof (any_entry g2 s2 s0 s1 s3) as E2.
    pose proof (any_entry g3 s3 s0 s1 s2) as E3.
    cbv zeta in E0, E1, E2, E3.
    destruct E0 as (B0 & Z0 & H0), E1 as (B1 & Z1 & H1),
      E2 as (B2 & Z2 & H2), E3 as (B3 & Z3 & H3).
    do 4 (destruct i as [| i];
          [ cbn [nth In];
            split; [assumption |];
            split; [| assumption];
            first [rewrite Z0 | rewrite Z1 | rewrite Z2 | rewrite Z3];
            clear; intuition congruence
          |]).
    exfalso. clear - Hi. lia.
Qed.

Lemma clue_entry_zero_iff_absent_witness :
  exists clue,
    getClueFromGuess [5; 7; 2; 6] [5; 6; 3; 4] = Ok clue
    /\ forall i, (i < 4)%nat ->
         0 <= nth i clue 0 <= 5
         /\ (nth i clue 0 = 0 <-> ~ In (nth i [5; 7; 2; 6] 0) [5; 6; 3; 4])
         /\ (nth i [5; 7; 2; 6] 0 = nth i [5; 6; 3; 4] 0 -> 2 <= nth i clue 0).
Proof.
  apply (clue_entry_zero_iff_absent [5; 7; 2; 6] [5; 6; 3; 4]); reflexivity.
Defined.

Lemma four_equal (a0 a1 a2 a3 b0 b1 b2 b3 : Z) :
  [a0; a1; a2; a3] = [b0; b1; b2; b3]
  <-> a0 = b0 /\ a1 = b1 /\ a2 = b2 /\ a3 = b3.
Proof.
  split.
  - intros H. injection H as -> -> -> ->. auto.
  - intros (-> & -> & -> & ->). reflexivity.
Qed.

(** X5: against a solution of four pairwise distinct digits, scoring a
    guess and testing the clue with [checkIfSolved] answers [true] exactly
    when the guess is the solution.  Distinctness is needed: the guess
    [2; 2; 1; 1] scores 2 everywhere against [1; 1; 2; 2]. *)
Theorem solved_iff_guess_is_solution :
  (forall guess solution,
      length guess = 4%nat ->
      length solution = 4%nat ->
      NoDup solution ->
      exists b,
        (clue <- getClueFromGuess guess solution ;; checkIfSolved clue) = Ok b
        /\ (b = true <-> guess = solution))
  /\ (exists guess solution,
         length guess = 4%nat /\ length solution = 4%nat
         /\ guess <> solution
         /\ (clue <- getClueFromGuess guess solution ;; checkIfSolved clue)
            = Ok true).
Proof.
  split.
  - intros guess solution; four_elements guess; four_elements solution.
    rename z into g0, z0 into g1, z1 into g2, z2 into g3.
    rename z3 into s0, z4 into s1, z5 into s2, z6 into s3.
    intros Hnd. apply NoDup_four in Hnd.
    rewrite getClueFromGuess_four. cbn [bind].
    destruct (distinct_solution_entries g0 g1 g2 g3 s0 s1 s2 s3 Hnd)
      as (c0 & c1 & c2 & c3 & -> & _ & E0 & E1 & E2 & E3).
    rewrite checkIfSolved_four. eexists. split; [reflexivity |].
    rewrite four_equal, <- E0, <- E1, <- E2, <- E3.
    rewrite !andb_true_iff, !Z.eqb_eq. tauto.
  - exists [2; 2; 1; 1], [1; 1; 2; 2].
    repeat (split; [reflexivity || discriminate |]). reflexivity.
Qed.

Lemma solved_iff_guess_is_solution_witness :
  exists b,
    (clue <- getClueFromGuess [5; 7; 2; 6] [5; 6; 3; 4] ;; checkIfSolved clue)
    = Ok b
    /\ (b = true <-> [5; 7; 2; 6] = [5; 6; 3; 4]).
Proof.
  apply (proj1 solved_iff_guess_is_solution [5; 7; 2; 6] [5; 6; 3; 4]);
    [reflexivity | reflexivity |].
  repeat constructor; cbn; intuition lia.
Defined.

(** X6: a solution decoded by [separateCombinationDigits] and accepted by
    [validateCombination] makes every guess of four digits score a clue that
    [serializeClue] packs without failure into a value of at most 170, that
    [deserializeClue] unpacks again, and that equals 170 exactly when the
    guess is the solution. *)
Theorem validated_solution_clue_packs (v : Z) (solution guess : list Z) :
  separateCombinationDigits v = Ok solution ->
  validateCombination solution = Ok tt ->
  length guess = 4%nat ->
  exists clue packed,
    getClueFromGuess guess solution = Ok clue
    /\ serializeClue clue = Ok packed
    /\ 0 <= packed <= 170
    /\ deserializeClue packed = Ok clue
    /\ (packed = 170 <-> guess = solution).
Proof.
  intros Hsep Hval.
  apply separateCombinationDigits_inv in Hsep. destruct Hsep as [_ ->].
  apply validateCombination_ok_distinct in Hval.
  four_elements guess.
  rename z into g0, z0 into g1, z1 into g2, z2 into g3.
  set (s0 := Z.quot v 1000) in *. set (s1 := Z.rem (Z.quot v 100) 10) in *.
  set (s2 := Z.rem (Z.quot v 10) 10) in *. set (s3 := Z.rem v 10) in *.
  clearbody s0 s1 s2 s3.
  assert (Hd : s0 <> s1 /\ s0 <> s2 /\ s0 <> s3
               /\ s1 <> s2 /\ s1 <> s3 /\ s2 <> s3) by tauto.
  clear Hval.
  rewrite getClueFromGuess_four.
  destruct (distinct_solution_entries g0 g1 g2 g3 s0 s1 s2 s3 Hd)
    as (c0 & c1 & c2 & c3 & -> & Hb & E0 & E1 & E2 & E3).
  assert (Hfit : Forall (fun c => 0 <= c < 2 ^ 2) [c0; c1; c2; c3])
    by (repeat constructor; lia).
  pose proof (clue_round_trip [c0; c1; c2; c3] eq_refl Hfit) as Hrt.
  assert (Hser : serializeClue [c0; c1; c2; c3]
                 = Ok (c0 + 4 * c1 + 16 * c2 + 64 * c3)).
  { rewrite serializeClue_serialize, serialize_correct;
      [| exact Hfit | cbn; unfold Field.maxBits; lia].
    rewrite !little_endian_sum_cons. f_equal.
    change (2 ^ Z.of_nat 2) with 4.
    change (little_endian_sum 2 []) with 0. lia. }
  rewrite Hser in Hrt. cbv beta iota delta [bind] in Hrt.
  exists [c0; c1; c2; c3], (c0 + 4 * c1 + 16 * c2 + 64 * c3).
  split; [reflexivity |]. split; [exact Hser |].
  split; [clear - Hb; lia |]. split; [exact Hrt |].
  rewrite four_equal, <- E0, <- E1, <- E2, <- E3. clear - Hb. lia.
Qed.

Lemma validated_solution_clue_packs_witness :
  exists clue packed,
    getClueFromGuess [5; 7; 2; 6] [5; 6; 3; 4] = Ok clue
    /\ serializeClue clue = Ok packed
    /\ 0 <= packed <= 170
    /\ deserializeClue packed = Ok clue
    /\ (packed = 170 <-> [5; 7; 2; 6] = [5; 6; 3; 4]).
Proof.
  apply (validated_solution_clue_packs 5634 [5; 6; 3; 4] [5; 7; 2; 6]);
    reflexivity.
Defined.

(** ** The packer on every input *)

Lemma mapM_err {A B : Type} (f : A -> result B) (e : error) (xs : list A) :
  (forall x, In x xs -> (exists y, f x = Ok y) \/ f x = Err e) ->
  Exists (fun x => f x = Err e) xs ->
  mapM f xs = Err e.
Proof.
  intros Hall Hex. induction Hex as [x xs Hx | x xs _ IH].
  - cbn. now rewrite Hx.
  - cbn. destruct (Hall x (or_introl eq_refl)) as [[y Hy] | Hx].
    + rewrite Hy. cbn. rewrite IH; [reflexivity |].
      intros z Hz. apply Hall. now right.
    + now rewrite Hx.
Qed.

(** X7: the failures of [serialize].  The empty array packs to 0 whatever
    the width; a width above 254 fails on the first element; at a width of at
    most 254 an element of [2^range] or more makes it fail as not fitting;
    and elements that all fit still fail once their total width exceeds 254
    bits. *)
Theorem serialize_outcome (fields : list Z) (range : nat) :
  (fields = [] -> serialize fields range = Ok 0)
  /\ (fields <> [] -> (254 < range)%nat ->
      serialize fields range = Err BitLength)
  /\ ((range <= 254)%nat ->
      Exists (fun e => 2 ^ Z.of_nat range <= e) fields ->
      serialize fields range = Err DoesNotFit)
  /\ (Forall (fun e => 0 <= e < 2 ^ Z.of_nat range) fields ->
      (254 < length fields * range)%nat ->
      serialize fields range = Err BitLength).
Proof.
  split; [| split; [| split]].
  - intros ->. reflexivity.
  - intros Hne Hr. destruct fields as [| e fields]; [congruence |].
    unfold serialize. cbn [mapM]. unfold Field.toBits.
    destruct (Nat.ltb_spec Field.maxBits range);
      [reflexivity | unfold Field.maxBits in *; lia].
  - intros Hr Hex. unfold serialize.
    rewrite (mapM_err _ DoesNotFit); [reflexivity | |].
    + intros x _. unfold Field.toBits.
      destruct (Nat.ltb_spec Field.maxBits range);
        [unfold Field.maxBits in *; lia |].
      destruct (x <? 2 ^ Z.of_nat range); eauto.
    + eapply Exists_impl; [| exact Hex].
      intros x Hx. cbv beta in Hx. unfold Field.toBits.
      destruct (Nat.ltb_spec Field.maxBits range);
        [unfold Field.maxBits in *; lia |].
      destruct (Z.ltb_spec x (2 ^ Z.of_nat range)); [lia | reflexivity].
  - intros Hall Hlen.
    destruct (Nat.le_gt_cases range 254) as [Hr | Hr].
    + unfold serialize.
      rewrite (mapM_ok _ (Field.bits_le range)).
      * cbn [bind]. unfold Field.fromBits. rewrite length_concat_bits.
        destruct (Nat.ltb_spec Field.maxBits (length fields * range));
          [reflexivity | unfold Field.maxBits in *; lia].
      * eapply Forall_impl; [| exact Hall].
        intros x Hx. apply toBits_ok; [exact Hr | apply Hx].
    + destruct fields as [| e fields]; [cbn in Hlen; lia |].
      unfold serialize. cbn [mapM]. unfold Field.toBits.
      destruct (Nat.ltb_spec Field.maxBits range);
        [reflexivity | unfold Field.maxBits in *; lia].
Qed.

Lemma serialize_outcome_witness :
  serialize [] 14 = Ok 0
  /\ serialize [1] 255 = Err BitLength
  /\ serialize [3; 16384] 14 = Err DoesNotFit
  /\ serialize (repeat 1 19) 14 = Err BitLength.
Proof.
  split; [apply (proj1 (serialize_outcome [] 14)); reflexivity |].
  split; [apply (proj1 (proj2 (serialize_outcome [1] 255)));
          [discriminate | lia] |].
  split.
  - apply (proj1 (proj2 (proj2 (serialize_outcome [3; 16384] 14)))); [lia |].
    apply Exists_cons_tl, Exists_cons_hd. cbn. lia.
  - apply (proj2 (proj2 (proj2 (serialize_outcome (repeat 1 19) 14)))).
    + repeat constructor; cbn; lia.
    + cbn. lia.
Defined.

(** The slots of an aggregate pack back to its low [n * W] bits. *)
Lemma little_endian_sum_slots (W : nat) (n : nat) :
  forall v, little_endian_sum W (map (slot W v) (seq 0 n))
            = v mod 2 ^ (Z.of_nat n * Z.of_nat W).
Proof.
  induction n as [| n IH]; intros v.
  - cbn. now rewrite Z.mod_1_r.
  - cbn [seq map]. rewrite little_endian_sum_cons.
    rewrite <- seq_shift, map_map.
    rewrite (map_ext _ (slot W (v / 2 ^ Z.of_nat W))).
    + rewrite IH. unfold slot at 1.
      rewrite Z.mul_0_r, Z.pow_0_r, Z.div_1_r.
      replace (Z.of_nat (S n) * Z.of_nat W)
        with (Z.of_nat W + Z.of_nat n * Z.of_nat W) by lia.
      rewrite Z.pow_add_r, Z.rem_mul_r by lia. reflexivity.
    + intros j. unfold slot. f_equal.
      replace (Z.of_nat W * Z.of_nat (S j))
        with (Z.of_nat W + Z.of_nat W * Z.of_nat j) by lia.
      rewrite Z.pow_add_r, Z.div_div by lia. reflexivity.
Qed.

Lemma map_nth_seq_pad (l : list Z) :
  forall n, (length l <= n)%nat ->
  map (fun j => nth j l 0) (seq 0 n) = l ++ repeat 0 (n - length l).
Proof.
  induction l as [| a l IH]; intros n Hn.
  - cbn [length app]. rewrite Nat.sub_0_r.
    induction n as [| n IHn] using nat_ind; [reflexivity |].
    rewrite seq_S, map_app, IHn by (cbn; lia). cbn [map Nat.add nth].
    replace (match n with O | _ => 0 end) with 0 by now destruct n.
    now rewrite <- repeat_cons.
  - destruct n as [| n]; [cbn in Hn; lia |].
    cbn [seq map nth length Nat.sub app]. f_equal.
    rewrite <- seq_shift, map_map. cbn [nth].
    apply IH. cbn in Hn. lia.
Qed.

(** X8: [deserializeClue] succeeds exactly on the field elements below 256:
    it returns four entries between 0 and 3 that [serializeClue] packs back
    to the same value; from 256 on it fails as not fitting in 8 bits. *)
Theorem deserializeClue_outcome (v : Z) :
  Field.wf v ->
  (v < 256 ->
   exists clue,
     deserializeClue v = Ok clue
     /\ length clue = 4%nat
     /\ Forall (fun c => 0 <= c <= 3) clue
     /\ serializeClue clue = Ok v)
  /\ (256 <= v -> deserializeClue v = Err DoesNotFit).
Proof.
  unfold Field.wf. intros Hv. split.
  - intros Hlt. exists (map (slot 2 v) (seq 0 4)).
    split; [apply deserializeClue_correct; lia |].
    split; [reflexivity |].
    assert (Hall : Forall (fun c => 0 <= c < 2 ^ Z.of_nat 2)
                     (map (slot 2 v) (seq 0 4))).
    { apply Forall_map, Forall_forall. intros j _. apply slot_bound. }
    split.
    + eapply Forall_impl; [| exact Hall]. cbn. intros c Hc. lia.
    + rewrite serializeClue_serialize, serialize_correct;
        [| exact Hall | cbn; unfold Field.maxBits; lia].
      rewrite little_endian_sum_slots. f_equal.
      apply Z.mod_small. cbn. lia.
  - intros Hge. unfold deserializeClue, Field.toBits. cbn [Nat.ltb Nat.leb].
    change (Field.maxBits <? 8)%nat with false. cbv iota.
    destruct (Z.ltb_spec v (2 ^ Z.of_nat 8)); [cbn in *; lia | reflexivity].
Qed.

Lemma deserializeClue_outcome_witness :
  (exists clue,
      deserializeClue 27 = Ok clue
      /\ length clue = 4%nat
      /\ Forall (fun c => 0 <= c <= 3) clue
      /\ serializeClue clue = Ok 27)
  /\ deserializeClue 256 = Err DoesNotFit.
Proof.
  split.
  - apply (proj1 (deserializeClue_outcome 27
                    ltac:(unfold Field.wf, Field.p; lia))). lia.
  - apply (proj2 (deserializeClue_outcome 256
                    ltac:(unfold Field.wf, Field.p; lia))). lia.
Defined.

(** X9: packing at most [n] elements below [2^range] and unpacking the
    aggregate at [n * range] bits (at most 254) gives the elements back,
    followed by zeros up to [n] slots. *)
Theorem pack_then_unpack (fields : list Z) (range n : nat) :
  (0 < range)%nat ->
  (n * range <= 254)%nat ->
  (length fields <= n)%nat ->
  Forall (fun e => 0 <= e < 2 ^ Z.of_nat range) fields ->
  exists v,
    serialize fields range = Ok v
    /\ deserialize v (n * range) range
       = Ok (fields ++ repeat 0 (n - length fields)).
Proof.
  intros Hr Hmax Hlen Hall.
  exists (little_endian_sum range fields).
  pose proof (little_endian_sum_bound range fields Hall) as Hb.
  split; [apply serialize_correct; [exact Hall | unfold Field.maxBits; nia] |].
  rewrite deserialize_correct; [| exact Hr | unfold Field.maxBits; lia |].
  - f_equal.
    rewrite (map_ext _ (fun j => nth j fields 0))
      by (intros j; now apply slot_little_endian_sum).
    now apply map_nth_seq_pad.
  - split; [lia |].
    eapply Z.lt_le_trans; [apply Hb |].
    apply Z.pow_le_mono_r; nia.
Qed.

Lemma pack_then_unpack_witness :
  exists v,
    serialize [1234; 5678] 14 = Ok v
    /\ deserialize v (3 * 14) 14
       = Ok ([1234; 5678] ++ repeat 0 (3 - length [1234; 5678])).
Proof.
  apply (pack_then_unpack [1234; 5678] 14 3); try (cbn; lia).
  repeat constructor; cbn; lia.
Defined.

(** X10: unpacking an aggregate below [2^(n * range)] into chunks of
    [range] bits gives [n] slots below [2^range], and packing those slots
    gives the aggregate back. *)
Theorem unpack_then_pack (v : Z) (range n : nat) :
  (0 < range)%nat ->
  (n * range <= 254)%nat ->
  0 <= v < 2 ^ Z.of_nat (n * range) ->
  exists slots,
    deserialize v (n * range) range = Ok slots
    /\ length slots = n
    /\ Forall (fun s => 0 <= s < 2 ^ Z.of_nat range) slots
    /\ serialize slots range = Ok v.
Proof.
  intros Hr Hmax Hv.
  exists (map (slot range v) (seq 0 n)).
  assert (Hall : Forall (fun s => 0 <= s < 2 ^ Z.of_nat range)
                   (map (slot range v) (seq 0 n))).
  { apply Forall_map, Forall_forall. intros j _. apply slot_bound. }
  split; [apply deserialize_correct;
          [exact Hr | unfold Field.maxBits; lia | exact Hv] |].
  split; [now rewrite length_map, length_seq |].
  split; [exact Hall |].
  rewrite serialize_correct;
    [| exact Hall
     | rewrite length_map, length_seq; unfold Field.maxBits; lia].
  rewrite little_endian_sum_slots. f_equal.
  apply Z.mod_small. rewrite <- Nat2Z.inj_mul. exact Hv.
Qed.

Lemma unpack_then_pack_witness :
  exists slots,
    deserialize 1000000 (3 * 8) 8 = Ok slots
    /\ length slots = 3%nat
    /\ Forall (fun s => 0 <= s < 2 ^ Z.of_nat 8) slots
    /\ serialize slots 8 = Ok 1000000.
Proof.
  apply (unpack_then_pack 1000000 8 3); cbn; lia.
Defined.

(** X11: with a chunk size of 0 the chunking loop of [deserialize] never
    leaves an index below the number of bits: whatever the fuel, it runs out;
    so [deserialize] does not return on a non-empty bit size. *)
Theorem chunk_size_zero_never_ends :
  (forall (packedBits : list bool) (i : nat) (acc : list (list bool)),
      (i < length packedBits)%nat ->
      forall fuel, chunk_loop fuel packedBits 0 i acc = Err OutOfFuel)
  /\ (forall (v : Z) (size : nat),
         (0 < size <= 254)%nat -> v < 2 ^ Z.of_nat size ->
         deserialize v size 0 = Err OutOfFuel).
Proof.
  assert (loop : forall (packedBits : list bool) (i : nat),
             (i < length packedBits)%nat ->
             forall fuel acc, chunk_loop fuel packedBits 0 i acc = Err OutOfFuel).
  { intros packedBits i Hi fuel.
    induction fuel as [| fuel IH]; intros acc; [reflexivity |].
    cbn [chunk_loop].
    destruct (Nat.ltb_spec i (length packedBits)); [| lia].
    rewrite Nat.add_0_r. apply IH. }
  split.
  - intros packedBits i acc Hi fuel. now apply loop.
  - intros v size Hs Hv. unfold deserialize.
    rewrite toBits_ok by (unfold Field.maxBits; lia || exact Hv).
    cbn [bind]. rewrite loop by (rewrite length_bits_le; lia).
    reflexivity.
Qed.

Lemma chunk_size_zero_never_ends_witness :
  (forall fuel, chunk_loop fuel [true; false] 0 1 [] = Err OutOfFuel)
  /\ deserialize 5 8 0 = Err OutOfFuel.
Proof.
  split.
  - apply (proj1 chunk_size_zero_never_ends [true; false] 1%nat []). cbn. lia.
  - apply (proj2 chunk_size_zero_never_ends 5 8%nat); cbn; lia.
Defined.

(** The chunking loop on any number of bits: the last chunk may be short. *)
Lemma chunk_loop_any (packedBits : list bool) (chunkSize : nat) (m : nat) :
  (0 < chunkSize)%nat ->
  forall (k fuel : nat) (acc : list (list bool)),
    (m < fuel)%nat ->
    (length packedBits <= (k + m) * chunkSize)%nat ->
    (0 < m -> (k + m - 1) * chunkSize < length packedBits)%nat ->
    chunk_loop fuel packedBits chunkSize (k * chunkSize) acc
    = Ok (acc ++ map (fun j => slice packedBits (j * chunkSize)
                                 (j * chunkSize + chunkSize))
                   (seq k m)).
Proof.
  intros Hc. induction m as [| m IH]; intros k fuel acc Hfuel Hup Hlow.
  - destruct fuel as [| fuel]; [lia |]. cbn [chunk_loop seq map].
    destruct (Nat.ltb_spec (k * chunkSize) (length packedBits)); [lia |].
    now rewrite app_nil_r.
  - destruct fuel as [| fuel]; [lia |]. cbn [chunk_loop seq map].
    destruct (Nat.ltb_spec (k * chunkSize) (length packedBits)); [| nia].
    replace (k * chunkSize + chunkSize)%nat with (S k * chunkSize)%nat by lia.
    rewrite IH; [| lia | nia | intros Hm; specialize (Hlow ltac:(lia)); nia].
    rewrite <- app_assoc. cbn [app].
    replace (S k * chunkSize)%nat with (k * chunkSize + chunkSize)%nat by lia.
    reflexivity.
Qed.

Lemma slice_bits_le_tail (n a m : nat) (x : Z) :
  (a <= n)%nat -> (n <= a + m)%nat ->
  slice (Field.bits_le n x) a (a + m)
  = Field.bits_le (n - a) (x / 2 ^ Z.of_nat a).
Proof.
  intros Ha Hm. unfold slice.
  replace n with (a + (n - a))%nat at 1 by lia.
  rewrite bits_le_add.
  rewrite skipn_app, skipn_all2 by (rewrite length_bits_le; lia).
  rewrite length_bits_le, Nat.sub_diag. cbn [skipn app].
  apply firstn_all2. rewrite length_bits_le. lia.
Qed.

(** The value of chunk [j], whole or short. *)
Lemma chunk_value (v : Z) (size chunkSize j : nat) :
  0 <= v < 2 ^ Z.of_nat size ->
  (j * chunkSize < size)%nat ->
  Field.of_bits_le
    (slice (Field.bits_le size v) (j * chunkSize) (j * chunkSize + chunkSize))
  = slot chunkSize v j.
Proof.
  intros Hv Hj. unfold slot.
  replace (Z.of_nat chunkSize * Z.of_nat j) with (Z.of_nat (j * chunkSize))
    by lia.
  destruct (Nat.le_gt_cases (j * chunkSize + chunkSize) size) as [Hin | Hout].
  - rewrite slice_bits_le by exact Hin. apply of_bits_le_bits_le.
  - rewrite slice_bits_le_tail by lia. rewrite of_bits_le_bits_le.
    set (a := (j * chunkSize)%nat) in *.
    assert (Hq : 0 <= v / 2 ^ Z.of_nat a < 2 ^ Z.of_nat (size - a)).
    { split; [apply Z.div_pos; lia |].
      apply Z.div_lt_upper_bound; [lia |].
      rewrite <- Z.pow_add_r by lia.
      replace (Z.of_nat a + Z.of_nat (size - a)) with (Z.of_nat size) by lia.
      apply Hv. }
    assert (Hle : 2 ^ Z.of_nat (size - a) <= 2 ^ Z.of_nat chunkSize)
      by (apply Z.pow_le_mono_r; lia).
    rewrite !Z.mod_small by lia. reflexivity.
Qed.

Lemma slice_length (A : Type) (l : list A) (a b : nat) :
  (length (slice l a b) <= length l)%nat.
Proof.
  unfold slice. rewrite length_firstn, length_skipn. lia.
Qed.

(** X12: for a positive chunk size and a value that fits in [size] bits,
    [deserialize] returns the chunks of the value in order, lowest bits
    first: [size / chunkSize] rounded up many, the last one holding the
    remaining high bits when [size] is not a multiple of the chunk size. *)
Theorem deserialize_slots (v : Z) (size chunkSize : nat) :
  (0 < chunkSize)%nat ->
  (size <= 254)%nat ->
  0 <= v < 2 ^ Z.of_nat size ->
  deserialize v size chunkSize
  = Ok (map (slot chunkSize v)
          (seq 0 ((size + chunkSize - 1) / chunkSize))).
Proof.
  intros Hc Hmax Hv. unfold deserialize.
  rewrite toBits_ok by (unfold Field.maxBits; lia). cbn [bind].
  set (m := ((size + chunkSize - 1) / chunkSize)%nat).
  assert (Hm : (size <= m * chunkSize
                /\ (0 < m -> (m - 1) * chunkSize < size))%nat).
  { pose proof (Nat.div_mod_eq (size + chunkSize - 1) chunkSize) as E.
    pose proof (Nat.mod_upper_bound (size + chunkSize - 1) chunkSize) as B.
    fold m in E. specialize (B ltac:(lia)). nia. }
  rewrite (chunk_loop_any _ chunkSize m Hc 0 _ []);
    rewrite ?length_bits_le; cbn [Nat.add]; try tauto; [| nia].
  cbn [bind app]. rewrite (mapM_ok _ Field.of_bits_le).
  - f_equal. rewrite map_map. apply map_ext_in.
    intros j Hj. apply in_seq in Hj.
    apply chunk_value; [exact Hv | nia].
  - apply Forall_map, Forall_forall. intros j _.
    apply fromBits_ok.
    pose proof (slice_length bool (Field.bits_le size v)
                  (j * chunkSize) (j * chunkSize + chunkSize)) as Hl.
    rewrite length_bits_le in Hl. unfold Field.maxBits. lia.
Qed.

Lemma deserialize_slots_witness :
  deserialize 1023 10 4
  = Ok (map (slot 4 1023) (seq 0 ((10 + 4 - 1) / 4))).
Proof.
  apply (deserialize_slots 1023 10 4); cbn; lia.
Defined.

(** X13: [deserialize] fails on a size above 254 bits, and, for a size of
    at most 254, on a value of [2^size] or more. *)
Theorem deserialize_failures (v : Z) (size chunkSize : nat) :
  ((254 < size)%nat -> deserialize v size chunkSize = Err BitLength)
  /\ ((size <= 254)%nat -> 2 ^ Z.of_nat size <= v ->
      deserialize v size chunkSize = Err DoesNotFit).
Proof.
  unfold deserialize, Field.toBits. split.
  - intros Hs.
    destruct (Nat.ltb_spec Field.maxBits size);
      [reflexivity | unfold Field.maxBits in *; lia].
  - intros Hs Hv.
    destruct (Nat.ltb_spec Field.maxBits size);
      [unfold Field.maxBits in *; lia |].
    destruct (Z.ltb_spec v (2 ^ Z.of_nat size)); [lia | reflexivity].
Qed.

Lemma deserialize_failures_witness :
  deserialize 0 255 5 = Err BitLength
  /\ deserialize 256 8 2 = Err DoesNotFit.
Proof.
  split.
  - apply (proj1 (deserialize_failures 0 255 5)). lia.
  - apply (proj2 (deserialize_failures 256 8 2)); cbn; lia.
Defined.

Example deserialize_short_last_chunk : deserialize 1023 10 4 = Ok [15; 15; 3].
Proof. reflexivity. Qed.

(** ** Laws of the indexed write *)

Lemma update_in_range (arr : list Z) (index x : Z) :
  Z.of_nat (length arr) < Field.p ->
  index < Z.of_nat (length arr) ->
  updateElementAtIndex x arr index
  = Ok (written arr index x (seq 0 (length arr))).
Proof.
  intros Hs H. rewrite updateElementAtIndex_correct by exact Hs.
  destruct (Z.ltb_spec index (Z.of_nat (length arr))); [reflexivity | lia].
Qed.

Lemma update_out_of_range (arr : list Z) (index x : Z) :
  Z.of_nat (length arr) < Field.p ->
  Z.of_nat (length arr) <= index ->
  updateElementAtIndex x arr index = Err IndexOutOfBounds.
Proof.
  intros Hs H. rewrite updateElementAtIndex_correct by exact Hs.
  destruct (Z.ltb_spec index (Z.of_nat (length arr))); [lia | reflexivity].
Qed.

(** Two writes in a row, element by element. *)
Lemma written_twice_nth (arr : list Z) (i j x y : Z) (k : nat) :
  (k < length arr)%nat ->
  nth k (written (written arr i x (seq 0 (length arr))) j y
           (seq 0 (length (written arr i x (seq 0 (length arr)))))) 0
  = if j =? Z.of_nat k then y
    else if i =? Z.of_nat k then x else nth k arr 0.
Proof.
  intros Hk.
  rewrite written_nth by (rewrite written_length; exact Hk).
  now rewrite written_nth by exact Hk.
Qed.

Lemma written_twice_length (arr : list Z) (i j x y : Z) :
  length (written (written arr i x (seq 0 (length arr))) j y
            (seq 0 (length (written arr i x (seq 0 (length arr))))))
  = length arr.
Proof. now rewrite !written_length. Qed.

(** X14: for an index below the length, [updateElementAtIndex] returns an
    array of the same length that holds the new value at the index and the
    original element everywhere else; it keeps the elements field
    elements. *)
Theorem updateElementAtIndex_shape (fieldArray : list Z) (index x : Z) :
  Z.of_nat (length fieldArray) < Field.p ->
  0 <= index < Z.of_nat (length fieldArray) ->
  exists updated,
    updateElementAtIndex x fieldArray index = Ok updated
    /\ length updated = length fieldArray
    /\ nth (Z.to_nat index) updated 0 = x
    /\ (forall j, (j < length fieldArray)%nat -> j <> Z.to_nat index ->
          nth j updated 0 = nth j fieldArray 0)
    /\ (Forall Field.wf fieldArray -> Field.wf x -> Forall Field.wf updated).
Proof.
  intros Hs Hi. eexists. split; [apply update_in_range; [exact Hs | lia] |].
  split; [apply written_length |].
  split; [| split].
  - rewrite written_nth by lia.
    destruct (Z.eqb_spec index (Z.of_nat (Z.to_nat index))); [reflexivity | lia].
  - intros j Hj Hne. rewrite written_nth by exact Hj.
    destruct (Z.eqb_spec index (Z.of_nat j)); [lia | reflexivity].
  - intros Hwf Hx. now apply written_wf.
Qed.

Lemma updateElementAtIndex_shape_witness :
  exists updated,
    updateElementAtIndex 9 [4; 5; 6] 2 = Ok updated
    /\ length updated = length [4; 5; 6]
    /\ nth (Z.to_nat 2) updated 0 = 9
    /\ (forall j, (j < length [4; 5; 6])%nat -> j <> Z.to_nat 2 ->
          nth j updated 0 = nth j [4; 5; 6] 0)
    /\ (Forall Field.wf [4; 5; 6] -> Field.wf 9 -> Forall Field.wf updated).
Proof.
  apply (updateElementAtIndex_shape [4; 5; 6] 2 9); [reflexivity | cbn; lia].
Defined.

(** X15: two writes at the same index amount to the second one alone,
    out-of-range failure included. *)
Theorem updateElementAtIndex_overwrite (fieldArray : list Z) (index x y : Z) :
  Z.of_nat (length fieldArray) < Field.p ->
  (a <- updateElementAtIndex x fieldArray index ;;
   updateElementAtIndex y a index)
  = updateElementAtIndex y fieldArray index.
Proof.
  intros Hs.
  destruct (Z.lt_ge_cases index (Z.of_nat (length fieldArray))) as [Hin | Hout].
  - rewrite (update_in_range fieldArray index x),
      (update_in_range fieldArray index y) by assumption.
    cbn [bind].
    rewrite update_in_range by (rewrite written_length; assumption).
    f_equal. apply (nth_ext _ _ 0 0).
    + now rewrite written_twice_length, written_length.
    + intros k Hk. rewrite written_twice_length in Hk.
      rewrite written_twice_nth, written_nth by exact Hk.
      now destruct (index =? Z.of_nat k).
  - rewrite (update_out_of_range fieldArray index x),
      (update_out_of_range fieldArray index y) by assumption.
    reflexivity.
Qed.

Lemma updateElementAtIndex_overwrite_witness :
  (a <- updateElementAtIndex 8 [4; 5; 6] 1 ;; updateElementAtIndex 9 a 1)
  = updateElementAtIndex 9 [4; 5; 6] 1.
Proof.
  apply (updateElementAtIndex_overwrite [4; 5; 6] 1 8 9). reflexivity.
Defined.

(** X16: writes at two different indices commute, out-of-range failure
    included. *)
Theorem updateElementAtIndex_commute (fieldArray : list Z) (i j x y : Z) :
  Z.of_nat (length fieldArray) < Field.p ->
  i <> j ->
  (a <- updateElementAtIndex x fieldArray i ;; updateElementAtIndex y a j)
  = (a <- updateElementAtIndex y fieldArray j ;; updateElementAtIndex x a i).
Proof.
  intros Hs Hne.
  destruct (Z.lt_ge_cases i (Z.of_nat (length fieldArray))) as [Hi | Hi];
    destruct (Z.lt_ge_cases j (Z.of_nat (length fieldArray))) as [Hj | Hj].
  - rewrite (update_in_range fieldArray i x),
      (update_in_range fieldArray j y) by assumption.
    cbn [bind].
    rewrite !update_in_range by (rewrite written_length; assumption).
    f_equal. apply (nth_ext _ _ 0 0).
    + now rewrite !written_twice_length.
    + intros k Hk. rewrite written_twice_length in Hk.
      rewrite !written_twice_nth by exact Hk.
      destruct (Z.eqb_spec j (Z.of_nat k)), (Z.eqb_spec i (Z.of_nat k));
        try reflexivity; lia.
  - rewrite (update_in_range fieldArray i x),
      (update_out_of_range fieldArray j y) by assumption.
    cbn [bind].
    now rewrite update_out_of_range by (rewrite written_length; assumption).
  - rewrite (update_out_of_range fieldArray i x),
      (update_in_range fieldArray j y) by assumption.
    cbn [bind].
    now rewrite update_out_of_range by (rewrite written_length; assumption).
  - rewrite (update_out_of_range fieldArray i x),
      (update_out_of_range fieldArray j y) by assumption.
    reflexivity.
Qed.

Lemma updateElementAtIndex_commute_witness :
  (a <- updateElementAtIndex 8 [4; 5; 6] 0 ;; updateElementAtIndex 9 a 2)
  = (a <- updateElementAtIndex 9 [4; 5; 6] 2 ;; updateElementAtIndex 8 a 0).
Proof.
  apply (updateElementAtIndex_commute [4; 5; 6] 0 2 8 9);
    [reflexivity | lia].
Defined.

(** X17: writing back the element an array already holds at an index
    returns the array unchanged. *)
Theorem updateElementAtIndex_same_element (fieldArray : list Z) (index : Z) :
  Z.of_nat (length fieldArray) < Field.p ->
  0 <= index < Z.of_nat (length fieldArray) ->
  updateElementAtIndex (nth (Z.to_nat index) fieldArray 0) fieldArray index
  = Ok fieldArray.
Proof.
  intros Hs Hi. rewrite update_in_range by lia. f_equal.
  apply (nth_ext _ _ 0 0); [apply written_length |].
  intros j Hj. rewrite written_length in Hj.
  rewrite written_nth by exact Hj.
  destruct (Z.eqb_spec index (Z.of_nat j)) as [E | _]; [| reflexivity].
  f_equal. lia.
Qed.

Lemma updateElementAtIndex_same_element_witness :
  updateElementAtIndex (nth (Z.to_nat 1) [4; 5; 6] 0) [4; 5; 6] 1
  = Ok [4; 5; 6].
Proof.
  apply (updateElementAtIndex_same_element [4; 5; 6] 1);
    [reflexivity | cbn; lia].
Defined.

(** ** Writing one slot of a packed history *)

Lemma packed_slot_write (range n : nat) (v g i : Z) :
  (0 < range)%nat ->
  (n * range <= 254)%nat ->
  0 <= v < 2 ^ Z.of_nat (n * range) ->
  0 <= g < 2 ^ Z.of_nat range ->
  0 <= i < Z.of_nat n ->
  exists v',
    (slots <- deserialize v (n * range) range ;;
     updated <- updateElementAtIndex g slots i ;;
     serialize updated range) = Ok v'
    /\ 0 <= v' < 2 ^ Z.of_nat (n * range)
    /\ forall j, (j < n)%nat ->
         slot range v' j = if i =? Z.of_nat j then g else slot range v j.
Proof.
  intros Hr Hmax Hv Hg Hi.
  rewrite deserialize_correct by (unfold Field.maxBits; assumption || lia).
  cbn [bind].
  set (slots := map (slot range v) (seq 0 n)).
  assert (Hlen : length slots = n)
    by (unfold slots; now rewrite length_map, length_seq).
  assert (Hsmall : Z.of_nat (length slots) < Field.p)
    by (rewrite Hlen; unfold Field.p; lia).
  rewrite update_in_range by (rewrite ?Hlen; assumption || lia).
  cbn [bind]. rewrite Hlen.
  set (updated := written slots i g (seq 0 n)).
  assert (Hlen' : length updated = n)
    by (unfold updated, written; now rewrite length_map, length_seq).
  assert (Hnth : forall j, (j < n)%nat ->
             nth j updated 0
             = if i =? Z.of_nat j then g else slot range v j).
  { intros j Hj. unfold updated. rewrite <- Hlen at 1.
    rewrite written_nth by (rewrite Hlen; exact Hj).
    destruct (i =? Z.of_nat j); [reflexivity |].
    unfold slots.
    rewrite (nth_indep _ 0 (slot range v 0%nat))
      by (rewrite length_map, length_seq; exact Hj).
    now rewrite map_nth, seq_nth by exact Hj. }
  assert (Hall : Forall (fun e => 0 <= e < 2 ^ Z.of_nat range) updated).
  { apply Forall_forall. intros e He.
    apply (In_nth _ _ 0) in He. destruct He as (j & Hj & <-).
    rewrite Hlen' in Hj. rewrite Hnth by exact Hj.
    destruct (i =? Z.of_nat j); [exact Hg | apply slot_bound]. }
  exists (little_endian_sum range updated).
  split; [apply serialize_correct;
          [exact Hall | rewrite Hlen'; unfold Field.maxBits; exact Hmax] |].
  split.
  - pose proof (little_endian_sum_bound range updated Hall) as Hb.
    rewrite Hlen', <- Nat2Z.inj_mul in Hb. exact Hb.
  - intros j Hj. rewrite slot_little_endian_sum by exact Hall.
    now apply Hnth.
Qed.

(** X18: unpacking a packed history, writing one entry at a slot below 15
    and packing again succeeds, and the new aggregate differs from the old
    one in that slot only: the slot holds the entry, every other slot its
    former content.  This holds for the guess history (14-bit slots) and for
    the clue history (8-bit slots). *)
Theorem history_slot_write :
  (forall v guess i,
      0 <= v < 2 ^ 210 -> 0 <= guess < 2 ^ 14 -> 0 <= i < 15 ->
      exists v',
        (slots <- deserializeCombinationHistory v ;;
         updated <- updateElementAtIndex guess slots i ;;
         serializeCombinationHistory updated) = Ok v'
        /\ 0 <= v' < 2 ^ 210
        /\ forall j, (j < 15)%nat ->
             slot 14 v' j = if i =? Z.of_nat j then guess else slot 14 v j)
  /\ (forall v clue i,
         0 <= v < 2 ^ 120 -> 0 <= clue < 2 ^ 8 -> 0 <= i < 15 ->
         exists v',
           (slots <- deserializeClueHistory v ;;
            updated <- updateElementAtIndex clue slots i ;;
            serializeClueHistory updated) = Ok v'
           /\ 0 <= v' < 2 ^ 120
           /\ forall j, (j < 15)%nat ->
                slot 8 v' j = if i =? Z.of_nat j then clue else slot 8 v j).
Proof.
  split.
  - intros v guess i Hv Hg Hi.
    apply (packed_slot_write 14 15 v guess i); try assumption; lia.
  - intros v clue i Hv Hc Hi.
    apply (packed_slot_write 8 15 v clue i); try assumption; lia.
Qed.

Lemma history_slot_write_witness :
  exists v',
    (slots <- deserializeCombinationHistory 1234 ;;
     updated <- updateElementAtIndex 5678 slots 1 ;;
     serializeCombinationHistory updated) = Ok v'
    /\ 0 <= v' < 2 ^ 210
    /\ forall j, (j < 15)%nat ->
         slot 14 v' j = if 1 =? Z.of_nat j then 5678 else slot 14 1234 j.
Proof.
  apply (proj1 history_slot_write 1234 5678 1); lia.
Defined.

(** ** The turn word on every input *)

Lemma compressTurnCountMaxAttemptSolved_ok (t m s : Z) :
  0 <= t < 100 -> 0 <= m < 100 -> 0 <= s < 2 ->
  compressTurnCountMaxAttemptSolved [t; m; s] = Ok (t * 10000 + m * 100 + s).
Proof.
  intros Ht Hm Hs.
  cbv [compressTurnCountMaxAttemptSolved array_get nth_error bind
       Field.assertLessThan Field.assertTrue Field.lessThan].
  destruct (Z.ltb_spec t 100); [| lia].
  destruct (Z.ltb_spec m 100); [| lia].
  destruct (Z.ltb_spec s 2); [| lia].
  field_small. f_equal. lia.
Qed.

Lemma compressTurnCountMaxAttemptSolved_inv (t m s w : Z) :
  Field.wf t -> Field.wf m -> Field.wf s ->
  compressTurnCountMaxAttemptSolved [t; m; s] = Ok w ->
  t < 100 /\ m < 100 /\ s < 2 /\ w = t * 10000 + m * 100 + s.
Proof.
  unfold Field.wf. intros Ht Hm Hs H.
  assert (B : t < 100 /\ m < 100 /\ s < 2).
  { revert H.
    cbv [compressTurnCountMaxAttemptSolved array_get nth_error bind
         Field.assertLessThan Field.assertTrue Field.lessThan].
    destruct (Z.ltb_spec t 100); [| discriminate].
    destruct (Z.ltb_spec m 100); [| discriminate].
    destruct (Z.ltb_spec s 2); [| discriminate]. lia. }
  rewrite compressTurnCountMaxAttemptSolved_ok in H by lia.
  injection H as <-. lia.
Qed.

(** X19: on a field element [v], [separateTurnCountAndMaxAttemptSolved]
    succeeds exactly when [v] is below 1000000 and its last two decimal
    digits form 0 or 1, and then returns the three decimal fields of [v];
    from 1000000 on it fails on the turn count, and below that, with last two
    digits of 2 or more, on the solved flag. *)
Theorem separateTurnCountAndMaxAttemptSolved_outcome (v : Z) :
  Field.wf v ->
  (v < 1000000 -> v mod 100 < 2 ->
   separateTurnCountAndMaxAttemptSolved v
   = Ok [v / 10000; (v / 100) mod 100; v mod 100])
  /\ (1000000 <= v ->
      separateTurnCountAndMaxAttemptSolved v = Err TurnCountBound)
  /\ (v < 1000000 -> 2 <= v mod 100 ->
      separateTurnCountAndMaxAttemptSolved v = Err SolvedFlagBound).
Proof.
  unfold Field.wf. intros Hv.
  assert (Hq : 0 <= Z.quot v 100) by (apply Z.quot_pos; lia).
  assert (D0 : Z.quot v 10000 = v / 10000)
    by (apply Z.quot_div_nonneg; lia).
  assert (D1 : Z.rem (Z.quot v 100) 100 = (v / 100) mod 100).
  { rewrite Z.rem_mod_nonneg by lia. now rewrite Z.quot_div_nonneg by lia. }
  assert (D2 : Z.rem v 100 = v mod 100) by (apply Z.rem_mod_nonneg; lia).
  unfold separateTurnCountAndMaxAttemptSolved. rewrite D0, D1, D2.
  split; [| split].
  - intros Hlt Hs.
    rewrite compressTurnCountMaxAttemptSolved_ok
      by (Z.to_euclidean_division_equations; lia).
    cbn [bind]. unfold Field.assertEquals, Field.assertTrue, Field.equals.
    replace (_ =? v) with true
      by (symmetry; apply Z.eqb_eq; Z.to_euclidean_division_equations; lia).
    reflexivity.
  - intros Hge.
    cbv [compressTurnCountMaxAttemptSolved array_get nth_error bind
         Field.assertLessThan Field.assertTrue Field.lessThan].
    destruct (Z.ltb_spec (v / 10000) 100);
      [Z.to_euclidean_division_equations; lia | reflexivity].
  - intros Hlt Hs.
    cbv [compressTurnCountMaxAttemptSolved array_get nth_error bind
         Field.assertLessThan Field.assertTrue Field.lessThan].
    destruct (Z.ltb_spec (v / 10000) 100);
      [| Z.to_euclidean_division_equations; lia].
    destruct (Z.ltb_spec ((v / 100) mod 100) 100);
      [| Z.to_euclidean_division_equations; lia].
    destruct (Z.ltb_spec (v mod 100) 2); [lia | reflexivity].
Qed.

Lemma separateTurnCountAndMaxAttemptSolved_outcome_witness :
  separateTurnCountAndMaxAttemptSolved 30701
  = Ok [30701 / 10000; (30701 / 100) mod 100; 30701 mod 100]
  /\ separateTurnCountAndMaxAttemptSolved 1000000 = Err TurnCountBound
  /\ separateTurnCountAndMaxAttemptSolved 30702 = Err SolvedFlagBound.
Proof.
  split; [| split].
  - apply (proj1 (separateTurnCountAndMaxAttemptSolved_outcome 30701
                    ltac:(unfold Field.wf, Field.p; lia)));
      [lia | reflexivity].
  - apply (proj1 (proj2 (separateTurnCountAndMaxAttemptSolved_outcome 1000000
                           ltac:(unfold Field.wf, Field.p; lia)))). lia.
  - apply (proj2 (proj2 (separateTurnCountAndMaxAttemptSolved_outcome 30702
                           ltac:(unfold Field.wf, Field.p; lia))));
      [lia | cbn; lia].
Defined.

(** X20: the turn word determines its three fields: two arrays of three
    field elements that [compressTurnCountMaxAttemptSolved] packs to the same
    word are equal, and a packed word is at most 999901. *)
Theorem turn_word_injective (ds ds' : list Z) (w : Z) :
  length ds = 3%nat -> length ds' = 3%nat ->
  Forall Field.wf ds -> Forall Field.wf ds' ->
  compressTurnCountMaxAttemptSolved ds = Ok w ->
  compressTurnCountMaxAttemptSolved ds' = Ok w ->
  ds = ds' /\ 0 <= w <= 999901.
Proof.
  intros Hl Hl' Hwf Hwf' H H'.
  do 3 (destruct ds as [| ? ds]; [discriminate Hl |]).
  destruct ds; [clear Hl | discriminate Hl].
  do 3 (destruct ds' as [| ? ds']; [discriminate Hl' |]).
  destruct ds'; [clear Hl' | discriminate Hl'].
  repeat match goal with
         | H : Forall _ (_ :: _) |- _ => inversion H; clear H; subst
         end.
  apply compressTurnCountMaxAttemptSolved_inv in H; try assumption.
  apply compressTurnCountMaxAttemptSolved_inv in H'; try assumption.
  unfold Field.wf in *.
  split; [repeat f_equal; lia | lia].
Qed.

Lemma turn_word_injective_witness :
  [3; 7; 1] = [3; 7; 1] /\ 0 <= 30701 <= 999901.
Proof.
  apply (turn_word_injective [3; 7; 1] [3; 7; 1] 30701);
    try reflexivity; repeat constructor; unfold Field.p; lia.
Defined.

(** ** The reward word *)

Lemma compressRewardAndFinalizeSlot_value (reward slot : Z) :
  0 <= reward < 2 ^ 64 -> 0 <= slot < 2 ^ 32 ->
  compressRewardAndFinalizeSlot reward slot = reward * 2 ^ 32 + slot.
Proof.
  intros Hr Hs. unfold compressRewardAndFinalizeSlot.
  change (2 ^ 64) with 18446744073709551616 in Hr.
  change (2 ^ 32) with 4294967296 in *.
  field_small. reflexivity.
Qed.

Lemma separateRewardAndFinalizeSlot_ok (v : Z) :
  0 <= v < 2 ^ 96 ->
  separateRewardAndFinalizeSlot v
  = Value {| rewardAmount := v / 2 ^ 32; finalizeSlot := v mod 2 ^ 32 |}.
Proof.
  change (2 ^ 96) with 79228162514264337593543950336.
  change (2 ^ 32) with 4294967296.
  intros Hv.
  assert (Hq : 0 <= Z.quot v 4294967296) by (apply Z.quot_pos; lia).
  assert (D0 : Z.quot v 18446744073709551616 = v / 18446744073709551616)
    by (apply Z.quot_div_nonneg; lia).
  assert (D1 : Z.rem (Z.quot v 4294967296) 4294967296
               = (v / 4294967296) mod 4294967296).
  { rewrite Z.rem_mod_nonneg by lia. now rewrite Z.quot_div_nonneg by lia. }
  assert (D2 : Z.rem v 4294967296 = v mod 4294967296)
    by (apply Z.rem_mod_nonneg; lia).
  unfold separateRewardAndFinalizeSlot. rewrite D0, D1, D2.
  set (d0 := v / 18446744073709551616).
  set (d1 := (v / 4294967296) mod 4294967296).
  set (d2 := v mod 4294967296).
  assert (B0 : 0 <= d0 < 4294967296)
    by (unfold d0; Z.to_euclidean_division_equations; lia).
  assert (B1 : 0 <= d1 < 4294967296)
    by (unfold d1; Z.to_euclidean_division_equations; lia).
  assert (B2 : 0 <= d2 < 4294967296)
    by (unfold d2; Z.to_euclidean_division_equations; lia).
  assert (E : d0 * 4294967296 + d1 = v / 4294967296)
    by (unfold d0, d1; Z.to_euclidean_division_equations; lia).
  assert (F32 : forall d, 0 <= d < 4294967296 -> UInt32.from d = Value d).
  { intros d Hd. unfold UInt32.from. change (2 ^ 32) with 4294967296.
    destruct (Z.leb_spec 0 d), (Z.ltb_spec d 4294967296);
      try reflexivity; lia. }
  rewrite !F32 by assumption. cbn [checked_bind].
  unfold UInt64.mul, UInt64.of_UInt32.
  change (UInt64.from (2 ^ 32)) with (Value (A := Z) 4294967296).
  cbn [checked_bind].
  rewrite (mul_small d0) by (unfold Field.p; lia).
  change (2 ^ 64) with 18446744073709551616.
  destruct (Z.ltb_spec (d0 * 4294967296) 18446744073709551616); [| lia].
  cbn [checked_bind]. unfold UInt64.add.
  rewrite (add_small (d0 * 4294967296)) by (unfold Field.p; lia).
  change (2 ^ 64) with 18446744073709551616.
  destruct (Z.ltb_spec (d0 * 4294967296 + d1) 18446744073709551616); [| lia].
  cbn [checked_bind].
  rewrite compressRewardAndFinalizeSlot_value
    by (change (2 ^ 64) with 18446744073709551616;
        change (2 ^ 32) with 4294967296; lia).
  change (2 ^ 32) with 4294967296.
  unfold Field.assertEquals, Field.assertTrue, Field.equals.
  replace (_ =? v) with true
    by (symmetry; apply Z.eqb_eq; rewrite E; unfold d2;
        Z.to_euclidean_division_equations; lia).
  cbn [lift checked_bind]. now rewrite E.
Qed.

(** X21: for a reward below [2^64] and a slot below [2^32],
    [compressRewardAndFinalizeSlot] returns [reward * 2^32 + slot], a value
    below [2^96], and [separateRewardAndFinalizeSlot] of it gives the reward
    and the slot back. *)
Theorem reward_word_round_trip (reward slot : Z) :
  0 <= reward < 2 ^ 64 -> 0 <= slot < 2 ^ 32 ->
  compressRewardAndFinalizeSlot reward slot = reward * 2 ^ 32 + slot
  /\ 0 <= compressRewardAndFinalizeSlot reward slot < 2 ^ 96
  /\ separateRewardAndFinalizeSlot (compressRewardAndFinalizeSlot reward slot)
     = Value {| rewardAmount := reward; finalizeSlot := slot |}.
Proof.
  intros Hr Hs.
  rewrite compressRewardAndFinalizeSlot_value by assumption.
  change (2 ^ 64) with 18446744073709551616 in Hr.
  change (2 ^ 32) with 4294967296 in *.
  change (2 ^ 96) with 79228162514264337593543950336.
  split; [reflexivity |]. split; [lia |].
  rewrite separateRewardAndFinalizeSlot_ok
    by (change (2 ^ 96) with 79228162514264337593543950336; lia).
  change (2 ^ 32) with 4294967296.
  f_equal. f_equal; Z.to_euclidean_division_equations; lia.
Qed.

Lemma reward_word_round_trip_witness :
  compressRewardAndFinalizeSlot 1000000000 123456
  = 1000000000 * 2 ^ 32 + 123456
  /\ 0 <= compressRewardAndFinalizeSlot 1000000000 123456 < 2 ^ 96
  /\ separateRewardAndFinalizeSlot
       (compressRewardAndFinalizeSlot 1000000000 123456)
     = Value {| rewardAmount := 1000000000; finalizeSlot := 123456 |}.
Proof.
  apply (reward_word_round_trip 1000000000 123456); lia.
Defined.

(** X22: on a field element [v], [separateRewardAndFinalizeSlot] succeeds
    exactly when [v] is below [2^96]: the reward is [v / 2^32], the slot is
    [v mod 2^32], both in range, and compressing them gives [v] back; from
    [2^96] on the first 32-bit digit is out of range and it fails. *)
Theorem separateRewardAndFinalizeSlot_outcome (v : Z) :
  Field.wf v ->
  (v < 2 ^ 96 ->
   separateRewardAndFinalizeSlot v
   = Value {| rewardAmount := v / 2 ^ 32; finalizeSlot := v mod 2 ^ 32 |}
   /\ 0 <= v / 2 ^ 32 < 2 ^ 64
   /\ 0 <= v mod 2 ^ 32 < 2 ^ 32
   /\ compressRewardAndFinalizeSlot (v / 2 ^ 32) (v mod 2 ^ 32) = v)
  /\ (2 ^ 96 <= v -> separateRewardAndFinalizeSlot v = Failure UInt32Range).
Proof.
  unfold Field.wf. intros Hv. split.
  - intros Hlt.
    split; [apply separateRewardAndFinalizeSlot_ok; lia |].
    assert (B : 0 <= v / 2 ^ 32 < 2 ^ 64 /\ 0 <= v mod 2 ^ 32 < 2 ^ 32).
    { change (2 ^ 96) with 79228162514264337593543950336 in Hlt.
      change (2 ^ 64) with 18446744073709551616.
      change (2 ^ 32) with 4294967296.
      Z.to_euclidean_division_equations; lia. }
    split; [apply B |]. split; [apply B |].
    rewrite compressRewardAndFinalizeSlot_value by apply B.
    change (2 ^ 32) with 4294967296.
    Z.to_euclidean_division_equations; lia.
  - intros Hge. unfold separateRewardAndFinalizeSlot, UInt32.from.
    change (2 ^ 96) with 79228162514264337593543950336 in Hge.
    change (2 ^ 32) with 4294967296.
    rewrite Z.quot_div_nonneg by lia.
    destruct (Z.leb_spec 0 (v / 18446744073709551616));
      [| Z.to_euclidean_division_equations; lia].
    destruct (Z.ltb_spec (v / 18446744073709551616) 4294967296);
      [Z.to_euclidean_division_equations; lia | reflexivity].
Qed.

Lemma separateRewardAndFinalizeSlot_outcome_witness :
  separateRewardAndFinalizeSlot (2 ^ 95)
  = Value {| rewardAmount := 2 ^ 95 / 2 ^ 32;
             finalizeSlot := 2 ^ 95 mod 2 ^ 32 |}
  /\ separateRewardAndFinalizeSlot (2 ^ 96) = Failure UInt32Range.
Proof.
  split.
  - apply (proj1 (separateRewardAndFinalizeSlot_outcome (2 ^ 95)
                    ltac:(unfold Field.wf, Field.p; lia))). lia.
  - apply (proj2 (separateRewardAndFinalizeSlot_outcome (2 ^ 96)
                    ltac:(unfold Field.wf, Field.p; lia))). lia.
Defined.
